(** * vox.recorder: streaming capture, level metering, endpointing, normalisation

    A shallow embedding of [src/vox/recorder.py].

    Conventions of the embedding.
    - A float sample or level is a real number ([R]); the one NaN the module
      can produce on its own (the mean of a zero-length block) is [None] in
      an [option R].
    - Python integers (sample counters) are [Z]; the two duration arguments
      are rationals ([Q]) so that [int(...)] is an executable truncation.
    - A call either returns, raises, or is still inside its loop when the
      finite trace of the environment is used up ([Waiting]).
    - The audio driver is the environment: the outcome of the device query,
      of opening and closing the stream, and the interleaving of callback
      invocations with consumer iterations are inputs of the model. *)

From Stdlib Require Import Reals Lra Lia ZArith QArith List String Ascii Bool Sorted.
Import ListNotations.

(** ** Exceptions and call results *)

Inductive exn : Type :=
| RecorderError (msg : string)     (* class RecorderError(Exception) *)
| PortAudioError (msg : string)    (* sd.PortAudioError *)
| ValueError (msg : string)        (* raised by numpy reductions *)
| OtherError (msg : string).       (* any other Exception of the platform *)

Definition is_RecorderError (e : exn) : bool :=
  match e with RecorderError _ => true | _ => false end.

Inductive result (A : Type) : Type :=
| Return (a : A)
| Raise (e : exn)
| Waiting.

Arguments Return {A} a.
Arguments Raise {A} e.
Arguments Waiting {A}.

Definition bind {A B : Type} (r : result A) (k : A -> result B) : result B :=
  match r with
  | Return a => k a
  | Raise e => Raise e
  | Waiting => Waiting
  end.

Notation "x <- r ;; k" := (bind r (fun x => k))
  (at level 61, r at next level, right associativity).

(** ** Module constants *)

Definition SAMPLE_RATE : Z := 16000.
Definition CHANNELS : Z := 1.
Definition BLOCK_SIZE : Z := 1024.

(** ** Arrays *)

Inductive DType : Type := Float32 | Float64.

Record ndarray : Type := mk_ndarray { dtype : DType; data : list R }.

(** [audio.astype(np.float32)] *)
Definition astype (t : DType) (a : ndarray) : ndarray :=
  mk_ndarray t (data a).

(** [audio / peak] with a Python float [peak]: the array keeps its dtype. *)
Definition array_div (a : ndarray) (peak : R) : ndarray :=
  mk_ndarray (dtype a) (map (fun x => (x / peak)%R) (data a)).

(** [np.max]: a reduction without identity, it raises on a zero-size array. *)
Definition np_max (l : list R) : result R :=
  match l with
  | [] => Raise (ValueError
            "zero-size array to reduction operation maximum which has no identity")
  | x :: t => Return (fold_left Rmax t x)
  end.

Definition np_abs (l : list R) : list R := map Rabs l.

(** [_normalize] *)
Definition _normalize (audio : ndarray) : result ndarray :=
  peak <- np_max (np_abs (data audio)) ;;
  let audio' := if Rlt_dec 0 peak then array_div audio peak else audio in
  Return (astype Float32 audio').

(** ** Level meter *)

Definition log10 (x : R) : R := (ln x / ln 10)%R.

(** [_rms_to_db] *)
Definition _rms_to_db (rms : R) : R :=
  if Rle_dec rms 0 then (-120)%R else (20 * log10 rms)%R.

(** A block of one-channel samples, as the callback receives it. *)
Definition chunk : Type := list R.

Definition len (c : chunk) : Z := Z.of_nat (List.length c).

Definition np_sum (l : list R) : R := fold_right Rplus 0%R l.

(** [np.mean]: NaN ([None]) on a zero-length block. *)
Definition np_mean (l : list R) : option R :=
  match l with
  | [] => None
  | _ => Some (np_sum l / INR (List.length l))%R
  end.

(** [float(np.sqrt(np.mean(chunk ** 2)))] *)
Definition chunk_rms (c : chunk) : option R :=
  option_map sqrt (np_mean (map (fun x => (x * x)%R) c)).

(** [_rms_to_db(rms)]; a NaN goes through [20 * log10] and stays a NaN. *)
Definition chunk_db (c : chunk) : option R :=
  option_map _rms_to_db (chunk_rms c).

(** [db < threshold_db]; every comparison with a NaN is false. *)
Definition db_lt (db : option R) (threshold_db : R) : bool :=
  match db with
  | Some d => if Rlt_dec d threshold_db then true else false
  | None => false
  end.

(** ** The queue between the callback and the consumer loop

    [queue.Queue(maxsize)]: a FIFO; [maxsize <= 0] means no bound. *)

Record Queue : Type := mk_Queue { maxsize : Z; items : list chunk }.

(** [queue.Queue()]: the default [maxsize] is 0. *)
Definition new_Queue : Queue := mk_Queue 0 [].

Definition qsize (q : Queue) : Z := Z.of_nat (List.length (items q)).

Definition full (q : Queue) : bool :=
  (0 <? maxsize q)%Z && (maxsize q <=? qsize q)%Z.

(** [q.put(item)] with the default [block=True, timeout=None]: on a full
    queue the caller waits ([None]); otherwise the item goes to the back. *)
Definition put (q : Queue) (item : chunk) : option Queue :=
  if full q then None
  else Some (mk_Queue (maxsize q) (items q ++ [item])).

(** [q.get(timeout=0.1)]: [None] is [queue.Empty]. *)
Definition get (q : Queue) : option (chunk * Queue) :=
  match items q with
  | [] => None
  | c :: rest => Some (c, mk_Queue (maxsize q) rest)
  end.

(** ** Endpointing loop of [record_until_silence] *)

Record config : Type := mk_config {
  threshold_db : R;
  silence_duration : Q;
  max_duration : Q
}.

(** [record_until_silence]'s default arguments. *)
Definition default_config : config := mk_config (-40)%R (3 # 2) (30 # 1).

(** Python's [int] on a float: truncation toward zero. *)
Definition int (x : Q) : Z := Z.quot (Qnum x) (Zpos (Qden x)).

Definition silent_samples_needed (cfg : config) : Z :=
  int (silence_duration cfg * inject_Z SAMPLE_RATE).

Definition max_samples (cfg : config) : Z :=
  int (max_duration cfg * inject_Z SAMPLE_RATE).

Record state : Type := mk_state {
  chunks : list chunk;
  silent_samples : Z;
  total_samples : Z
}.

Definition initial_state : state := mk_state [] 0 0.

(** Which of the two [break] statements leaves the loop. *)
Inductive loop_exit : Type :=
| BreakSilence     (* the [break] under the silence test *)
| BreakMax.        (* the [break] under the max-duration test *)

Inductive iteration : Type :=
| Continue (st : state)
| Break (why : loop_exit) (st : state).

(** The first half of the loop body, once a chunk has been taken from the
    queue: append it and update both counters. *)
Definition accumulate (cfg : config) (st : state) (c : chunk) : state :=
  let chunks' := chunks st ++ [c] in
  let total' := (total_samples st + len c)%Z in
  let db := chunk_db c in
  let silent' :=
    if db_lt db (threshold_db cfg) then (silent_samples st + len c)%Z
    else 0%Z in
  mk_state chunks' silent' total'.

(** The whole loop body: the two stopping tests, in the order of the code. *)
Definition on_block (cfg : config) (st : state) (c : chunk) : iteration :=
  let st' := accumulate cfg st c in
  if (silent_samples_needed cfg <=? silent_samples st')%Z
     && (silent_samples_needed cfg <? total_samples st')%Z
  then Break BreakSilence st'
  else if (max_samples cfg <=? total_samples st')%Z then Break BreakMax st'
  else Continue st'.

Definition state_of (i : iteration) : state :=
  match i with Continue st' => st' | Break _ st' => st' end.

(** The driver thread and the consumer loop interleave: a trace is a list of
    callback invocations and loop iterations. *)
Inductive action : Type :=
| Callback (indata : chunk)    (* the driver calls [callback]; the callback
                                  uses [indata] only, not [frames],
                                  [time_info] or [status] *)
| Iterate.                     (* one pass of the [while True] body *)

Record session : Type := mk_session { audio_queue : Queue; st : state }.

Definition initial_session : session := mk_session new_Queue initial_state.

Inductive loop_result : Type :=
| Looping (s : session)        (* trace used up inside the loop *)
| Exited (why : loop_exit) (s : session)
| Stalled (s : session).       (* the driver thread waits inside [put] *)

Fixpoint capture_loop (cfg : config) (s : session) (trace : list action)
  : loop_result :=
  match trace with
  | [] => Looping s
  | Callback indata :: rest =>
      match put (audio_queue s) indata with
      | Some q' => capture_loop cfg (mk_session q' (st s)) rest
      | None => Stalled s
      end
  | Iterate :: rest =>
      match get (audio_queue s) with
      | None => capture_loop cfg s rest          (* queue.Empty: continue *)
      | Some (c, q') =>
          match on_block cfg (st s) c with
          | Continue st' => capture_loop cfg (mk_session q' st') rest
          | Break why st' => Exited why (mk_session q' st')
          end
      end
  end.

Definition session_of (r : loop_result) : session :=
  match r with Looping s => s | Exited _ s => s | Stalled s => s end.

(** ** Device precheck *)

Record device_info : Type := mk_device_info {
  name : string;
  max_input_channels : Z
}.

(** [str(e)] *)
Definition str (e : exn) : string :=
  match e with
  | RecorderError m | PortAudioError m | ValueError m | OtherError m => m
  end.

(** [_ensure_mic_available]; [query] is the outcome of
    [sd.query_devices(device, kind="input")]. *)
Definition _ensure_mic_available (query : result device_info) : result unit :=
  let body :=
    info <- query ;;
    if (max_input_channels info <? 1)%Z
    then Raise (RecorderError
                  ("Device '" ++ name info ++ "' has no input channels"))
    else Return tt in
  match body with
  | Raise (PortAudioError m) =>
      Raise (RecorderError ("Cannot access audio device: " ++ m))
  | Raise (RecorderError m) => Raise (RecorderError m)
  | Raise e => Raise (RecorderError ("No suitable input device found: " ++ str e))
  | r => r
  end.

(** ** The two capture operations *)

(** What the audio driver does during one [record_until_silence] call. *)
Record driver : Type := mk_driver {
  open_error : option string;    (* PortAudioError on entering [sd.InputStream] *)
  trace : list action;
  close_error : option string    (* PortAudioError on leaving the [with] block *)
}.

(** The [except sd.PortAudioError] clause shared by both operations. *)
Definition translate_PortAudioError {A : Type} (body : result A) : result A :=
  match body with
  | Raise (PortAudioError m) =>
      Raise (RecorderError ("Audio recording failed: " ++ m))
  | r => r
  end.

Definition empty_float32 : ndarray := mk_ndarray Float32 [].

Definition record_until_silence (cfg : config) (query : result device_info)
    (drv : driver) : result ndarray :=
  _ <- _ensure_mic_available query ;;
  st' <- translate_PortAudioError
           (match open_error drv with
            | Some m => Raise (PortAudioError m)
            | None =>
                match capture_loop cfg initial_session (trace drv) with
                | Looping _ | Stalled _ => Waiting
                | Exited _ s =>
                    match close_error drv with
                    | Some m => Raise (PortAudioError m)
                    | None => Return (st s)
                    end
                end
            end) ;;
  match chunks st' with
  | [] => Return empty_float32
  | cs => _normalize (mk_ndarray Float32 (List.concat cs))
  end.

(** [sd_rec frames] is the outcome of [sd.rec(frames=...)] followed by
    [sd.wait()]: the flattened recording, or the exception raised. *)
Definition record_for_duration (duration_seconds : Q)
    (query : result device_info) (sd_rec : Z -> result ndarray)
  : result ndarray :=
  _ <- _ensure_mic_available query ;;
  let num_frames := int (duration_seconds * inject_Z SAMPLE_RATE) in
  recording <- translate_PortAudioError (sd_rec num_frames) ;;
  _normalize recording.

(** ** Vocabulary of the specification *)

(** A block is silent when its level is below the threshold. *)
Definition is_silent (cfg : config) (c : chunk) : bool :=
  db_lt (chunk_db c) (threshold_db cfg).

Fixpoint take_while {A : Type} (f : A -> bool) (l : list A) : list A :=
  match l with
  | [] => []
  | x :: t => if f x then x :: take_while f t else []
  end.

(** The maximal run of silent blocks at the end of a block sequence. *)
Definition trailing_silent_run (cfg : config) (cs : list chunk) : list chunk :=
  rev (take_while (is_silent cfg) (rev cs)).

(** The two stopping tests of the loop body, on the updated state. *)
Definition silence_test (cfg : config) (st' : state) : Prop :=
  (silent_samples_needed cfg <= silent_samples st')%Z /\
  (silent_samples_needed cfg < total_samples st')%Z.

Definition max_test (cfg : config) (st' : state) : Prop :=
  (max_samples cfg <= total_samples st')%Z.

(** Number of samples in a block sequence. *)
Definition total_len (cs : list chunk) : Z :=
  fold_right (fun c acc => (len c + acc)%Z) 0%Z cs.

(** The counters against the block sequence collected so far. *)
Definition counters_ok (cfg : config) (st : state) : Prop :=
  silent_samples st = total_len (trailing_silent_run cfg (chunks st)) /\
  total_samples st = total_len (chunks st).

(** The blocks the callback delivered along a trace, in arrival order. *)
Fixpoint delivered (t : list action) : list chunk :=
  match t with
  | [] => []
  | Callback indata :: rest => indata :: delivered rest
  | Iterate :: rest => delivered rest
  end.

(** Test blocks: [n] samples of digital silence, [n] samples at full scale. *)
Definition zeros (n : nat) : chunk := repeat 0%R n.
Definition ones (n : nat) : chunk := repeat 1%R n.

(** A configuration whose maximum duration, 1/16 s, is 1000 samples. *)
Definition short_config : config := mk_config (-40)%R (3 # 2) (1 # 16).

(** A configuration with an 8 s silence duration: 128000 samples, that is
    125 blocks of [BLOCK_SIZE] samples. *)
Definition long_silence_config : config := mk_config (-40)%R (8 # 1) (30 # 1).

(** A configuration whose silence duration is not a whole number of
    samples: 2049/32000 s is 1024.5 samples, truncated to 1024. *)
Definition fractional_config : config :=
  mk_config (-40)%R (2049 # 32000) (30 # 1).

(** A configuration whose silence duration, 1/16 s, is 1000 samples. *)
Definition quick_silence_config : config :=
  mk_config (-40)%R (1 # 16) (30 # 1).


(** The driver delivers [k] copies of a block, each consumed at once. *)
Fixpoint steady_trace (c : chunk) (k : nat) : list action :=
  match k with
  | O => []
  | S k' => Callback c :: Iterate :: steady_trace c k'
  end.

(** ** Device enumeration *)

(** One entry of [sd.query_devices()]: the keys [get_input_devices] reads. *)
Module DeviceDict.
Record t : Type := mk {
  name : string;
  max_input_channels : Z;
  default_samplerate : Q
}.
End DeviceDict.

(** One entry of the list [get_input_devices] returns. *)
Module InputDevice.
Record t : Type := mk {
  index : Z;
  name : string;
  channels : Z;
  default_samplerate : Q
}.
End InputDevice.

(** [enumerate(devices)] *)
Fixpoint enumerate {A : Type} (start : Z) (l : list A) : list (Z * A) :=
  match l with
  | [] => []
  | x :: rest => (start, x) :: enumerate (start + 1)%Z rest
  end.

(** [get_input_devices]; [query_devices] is the outcome of
    [sd.query_devices()], which is called outside any [try]. *)
Definition get_input_devices (query_devices : result (list DeviceDict.t))
  : result (list InputDevice.t) :=
  devices <- query_devices ;;
  Return
    (fold_left
       (fun (result : list InputDevice.t) (p : Z * DeviceDict.t) =>
          let (i, dev) := p in
          if (0 <? DeviceDict.max_input_channels dev)%Z
          then result ++ [InputDevice.mk i (DeviceDict.name dev)
                            (DeviceDict.max_input_channels dev)
                            (DeviceDict.default_samplerate dev)]
          else result)
       (enumerate 0 devices) []).

(** The entries for the devices with input channels, numbered from [start]:
    the list the loop of [get_input_devices] builds. *)
Fixpoint input_entries (start : Z) (devices : list DeviceDict.t)
  : list InputDevice.t :=
  match devices with
  | [] => []
  | dev :: rest =>
      if (0 <? DeviceDict.max_input_channels dev)%Z
      then InputDevice.mk start (DeviceDict.name dev)
             (DeviceDict.max_input_channels dev)
             (DeviceDict.default_samplerate dev)
           :: input_entries (start + 1)%Z rest
      else input_entries (start + 1)%Z rest
  end.

(** What [sd.query_devices(i, kind="input")] reports for the device at
    position [i] of the enumeration. *)
Definition info_of (dev : DeviceDict.t) : device_info :=
  mk_device_info (DeviceDict.name dev) (DeviceDict.max_input_channels dev).

(** ** The endpointing loop on a block sequence

    The loop body applied to the blocks in arrival order, up to the first
    [break]. *)
Fixpoint run_blocks (cfg : config) (st0 : state) (cs : list chunk)
  : iteration :=
  match cs with
  | [] => Continue st0
  | c :: rest =>
      match on_block cfg st0 c with
      | Continue st' => run_blocks cfg st' rest
      | Break why st' => Break why st'
      end
  end.

(** The stopping condition on a block sequence, in the words of the
    counters: enough trailing silence after more than that much audio, or
    the maximum amount of audio. *)
Definition stop_condition (cfg : config) (cs : list chunk) : Prop :=
  ((silent_samples_needed cfg <= total_len (trailing_silent_run cfg cs))%Z /\
   (silent_samples_needed cfg < total_len cs)%Z) \/
  (max_samples cfg <= total_len cs)%Z.

(** ** Python dictionaries with string keys, in insertion order *)

Fixpoint dict_get {V : Type} (k : string) (d : list (string * V)) : option V :=
  match d with
  | [] => None
  | (k', v) :: rest => if String.eqb k k' then Some v else dict_get k rest
  end.

(** [d[k] = v]: an existing key keeps its place, a new key goes last. *)
Fixpoint dict_set {V : Type} (k : string) (v : V) (d : list (string * V))
  : list (string * V) :=
  match d with
  | [] => [(k, v)]
  | (k', v') :: rest =>
      if String.eqb k k' then (k', v) :: rest
      else (k', v') :: dict_set k v rest
  end.

Definition dict_keys {V : Type} (d : list (string * V)) : list string :=
  map fst d.

(** [sorted] on strings: insertion sort by code point order. *)
Fixpoint insert_sorted (x : string) (l : list string) : list string :=
  match l with
  | [] => [x]
  | y :: rest => if String.leb x y then x :: l else y :: insert_sorted x rest
  end.

Definition sorted (l : list string) : list string :=
  fold_right insert_sorted [] l.

(** ** Push-to-talk hotkey listener ([hotkey.py]) *)

Module Hotkey.

(** A key object of pynput: a member of the [Key] enumeration, by its
    attribute name, or a character key. *)
Inductive key : Type :=
| Special (attr : string)
| KeyCode (char : string).

Definition key_eqb (a b : key) : bool :=
  match a, b with
  | Special x, Special y => String.eqb x y
  | KeyCode x, KeyCode y => String.eqb x y
  | _, _ => false
  end.

Inductive exn : Type := HotkeyError (msg : string).

Inductive outcome (A : Type) : Type :=
| Returns (a : A)
| Raises (e : exn).

Arguments Returns {A} a.
Arguments Raises {A} e.

(** The fields of a [PushToTalk] object; [_listener] records whether the
    attribute holds a listener ([true]) or [None]. *)
Record PushToTalk : Type := mk {
  _trigger_key_name : string;
  _active : bool;
  _listener : bool;
  _trigger_key : option key
}.

(** [PushToTalk(trigger_key=...)] *)
Definition init (trigger_key : string) : PushToTalk :=
  mk trigger_key false false None.

Definition key_names : list string :=
  ["alt_r"; "alt_l"; "alt"; "ctrl_r"; "ctrl_l"; "ctrl";
   "shift_r"; "shift_l"; "shift"; "cmd"; "cmd_r";
   "f1"; "f2"; "f3"; "f4"; "f5"; "f6";
   "f7"; "f8"; "f9"; "f10"; "f11"; "f12";
   "scroll_lock"; "pause"; "insert"]%string.

(** The loop that fills [key_map]; [has name] tells whether
    [getattr(Key, name)] exists on the platform. *)
Definition key_map_of (has : string -> bool) (names : list string)
  : list (string * key) :=
  fold_left
    (fun m name => if has name then dict_set name (Special name) m else m)
    names [].

Definition key_map (has : string -> bool) : list (string * key) :=
  key_map_of has key_names.

(** [_resolve_key]; [repr] is Python's [repr] on strings. *)
Definition _resolve_key (repr : string -> string) (has : string -> bool)
    (p : PushToTalk) : outcome key :=
  match dict_get (_trigger_key_name p) (key_map has) with
  | Some k => Returns k
  | None =>
      Raises (HotkeyError
        ("Unknown key " ++ repr (_trigger_key_name p) ++ ". Valid keys: "
         ++ String.concat ", " (sorted (dict_keys (key_map has)))))
  end.

(** The calls made to the two callbacks. An exception of a callback is
    logged and swallowed, so it changes nothing here. *)
Inductive callback : Type := OnStart | OnStop.

(** [key == self._trigger_key]; no key object equals [None]. *)
Definition is_trigger (p : PushToTalk) (k : key) : bool :=
  match _trigger_key p with
  | Some t => key_eqb k t
  | None => false
  end.

Definition set_active (b : bool) (p : PushToTalk) : PushToTalk :=
  mk (_trigger_key_name p) b (_listener p) (_trigger_key p).

(** [_on_press] *)
Definition _on_press (p : PushToTalk) (k : key) : PushToTalk * list callback :=
  if is_trigger p k
  then if negb (_active p) then (set_active true p, [OnStart]) else (p, [])
  else (p, []).

(** [_on_release] *)
Definition _on_release (p : PushToTalk) (k : key)
  : PushToTalk * list callback :=
  if is_trigger p k
  then if _active p then (set_active false p, [OnStop]) else (p, [])
  else (p, []).

(** What the listener thread reports. *)
Inductive event : Type := Press (k : key) | Release (k : key).

Definition handle (p : PushToTalk) (e : event) : PushToTalk * list callback :=
  match e with
  | Press k => _on_press p k
  | Release k => _on_release p k
  end.

(** The handlers run one at a time, under [self._lock]. *)
Fixpoint dispatch (p : PushToTalk) (events : list event)
  : PushToTalk * list callback :=
  match events with
  | [] => (p, [])
  | e :: rest =>
      let (p1, log1) := handle p e in
      let (p2, log2) := dispatch p1 rest in
      (p2, log1 ++ log2)
  end.

(** What creating and starting the pynput listener does. *)
Inductive listener_outcome : Type :=
| ListenerStarted
| ListenerInitFails (msg : string)      (* [Listener(...)] raises *)
| ListenerStartFails (msg : string).    (* [self._listener.start()] raises *)

(** [start]: the object after the call, and how the call ends. *)
Definition start (repr : string -> string) (has : string -> bool)
    (listener : listener_outcome) (p : PushToTalk)
  : PushToTalk * outcome unit :=
  match _resolve_key repr has p with
  | Raises e => (p, Raises e)
  | Returns k =>
      let p1 := mk (_trigger_key_name p) (_active p) (_listener p) (Some k) in
      match listener with
      | ListenerStarted =>
          (mk (_trigger_key_name p) (_active p) true (Some k), Returns tt)
      | ListenerInitFails m =>
          (p1, Raises (HotkeyError ("Failed to start hotkey listener: " ++ m)))
      | ListenerStartFails m =>
          (mk (_trigger_key_name p) (_active p) true (Some k),
           Raises (HotkeyError ("Failed to start hotkey listener: " ++ m)))
      end
  end.

(** [stop]: the object after the call and the number of [Listener.stop]
    calls made. *)
Definition stop (p : PushToTalk) : PushToTalk * nat :=
  if _listener p
  then (mk (_trigger_key_name p) (_active p) false (_trigger_key p), 1%nat)
  else (p, 0%nat).

Definition is_active (p : PushToTalk) : bool := _active p.

(** A callback log alternates when [on_start] and [on_stop] take turns,
    the first call being [on_start] when the key is not held. *)
Fixpoint alternates (active : bool) (log : list callback) : bool :=
  match log with
  | [] => true
  | OnStart :: rest => negb active && alternates true rest
  | OnStop :: rest => active && alternates false rest
  end.

Definition event_key (e : event) : key :=
  match e with Press k => k | Release k => k end.

End Hotkey.

(** ** Python strings

    A [str] is a Rocq string of code points below 256. *)

(** [str.isspace] on one character: tab to carriage return, the four
    separators 0x1c-0x1f, space, NEL (0x85) and no-break space (0xa0). *)
Definition is_space (c : ascii) : bool :=
  let n := nat_of_ascii c in
  ((9 <=? n) && (n <=? 13) || (28 <=? n) && (n <=? 32)
   || (n =? 133) || (n =? 160))%nat.

Fixpoint lstrip (s : string) : string :=
  match s with
  | EmptyString => EmptyString
  | String c rest => if is_space c then lstrip rest else s
  end.

Fixpoint rstrip (s : string) : string :=
  match s with
  | EmptyString => EmptyString
  | String c rest =>
      match rstrip rest with
      | EmptyString => if is_space c then EmptyString else String c EmptyString
      | kept => String c kept
      end
  end.

(** [s.strip()] *)
Definition strip (s : string) : string := rstrip (lstrip s).

(** A string of whitespace only (the empty string included). *)
Fixpoint blank (s : string) : bool :=
  match s with
  | EmptyString => true
  | String c rest => is_space c && blank rest
  end.

(** ** Speech-to-text wrapper ([transcriber.py]) *)

Module Transcriber.

Definition VALID_MODEL_SIZES : list string :=
  ["tiny"; "base"; "small"; "medium"]%string.

(** [_detect_device]; [torch] is [None] when [import torch] raises
    [ImportError], otherwise the value of [torch.cuda.is_available()]. *)
Definition _detect_device (torch : option bool) : string * string :=
  match torch with
  | Some true => ("cuda", "float16")%string
  | _ => ("cpu", "int8")%string
  end.

(** [get_model]: the cache [_models] after the call, and the outcome.
    [WhisperModel size device compute_type] is the outcome of the
    constructor of faster-whisper, [repr] is Python's [repr] on strings. *)
Definition get_model {Model : Type} (repr : string -> string)
    (torch : option bool)
    (WhisperModel : string -> string -> string -> result Model)
    (_models : list (string * Model)) (model_size : string)
  : list (string * Model) * result Model :=
  if negb (existsb (String.eqb model_size) VALID_MODEL_SIZES)
  then (_models,
        Raise (ValueError
          ("Invalid model_size " ++ repr model_size
           ++ ". Must be one of ('tiny', 'base', 'small', 'medium')")))
  else
    match dict_get model_size _models with
    | Some m => (_models, Return m)
    | None =>
        let (device, compute_type) := _detect_device torch in
        match WhisperModel model_size device compute_type with
        | Return m => (dict_set model_size m _models, Return m)
        | Raise e => (_models, Raise e)
        | Waiting => (_models, Waiting)
        end
    end.

(** [transcribe]; [run model audio] is the outcome of
    [model.transcribe(audio, beam_size=5)]: the texts of the segments. *)
Definition transcribe {Model : Type} (repr : string -> string)
    (torch : option bool)
    (WhisperModel : string -> string -> string -> result Model)
    (run : Model -> ndarray -> result (list string))
    (_models : list (string * Model)) (audio : ndarray) (model_size : string)
  : list (string * Model) * result string :=
  let (models', got) := get_model repr torch WhisperModel _models model_size in
  (models',
   model <- got ;;
   segments <- run model audio ;;
   Return (strip (String.concat " " (map strip segments)))).

(** The cache holds valid sizes only, each once. *)
Definition cache_ok {Model : Type} (_models : list (string * Model)) : Prop :=
  NoDup (dict_keys _models) /\
  forall k, In k (dict_keys _models) -> In k VALID_MODEL_SIZES.

End Transcriber.

(** ** Output delivery ([output.py]) *)

Module Output.

Inductive exn : Type :=
| OutputError (msg : string)
| ValueError (msg : string)
| KeyError (key : string)
| OSError (msg : string)
| UnicodeEncodeError (msg : string).

(** What the delivery functions act on: the system clipboard, standard
    output, and the key taps sent to the keyboard controller (modifier held,
    key tapped). *)
Record world : Type := mk_world {
  clipboard : string;
  stdout : string;
  taps : list (string * string)
}.

(** How simulating the paste ends: it works, or an exception is raised
    before or after the key was tapped. *)
Inductive paste_outcome : Type :=
| PasteDone
| PasteFails (msg : string) (tapped : bool).

(** How writing to standard output ends: [sys.stdout.write] and
    [sys.stdout.flush] both work, or one of them raises [err] (a closed
    stream, a broken pipe, a character the encoding lacks) when [written]
    has reached the stream. *)
Inductive write_outcome : Type :=
| WriteDone
| WriteFails (err : exn) (written : string).

(** The platform: the [PyperclipException] message when [pyperclip.copy]
    fails, whether [sys.platform] is "darwin", how the paste ends, and how
    writing to standard output ends. *)
Record env : Type := mk_env {
  copy_error : option string;
  darwin : bool;
  paste : paste_outcome;
  write : write_outcome
}.

Definition VALID_MODES : list string := ["clipboard"; "stdout"; "paste"]%string.

(** [to_clipboard] *)
Definition to_clipboard (e : env) (text : string) (w : world)
  : world * option exn :=
  match copy_error e with
  | Some m => (w, Some (OutputError ("Clipboard not available: " ++ m)))
  | None => (mk_world text (stdout w) (taps w), None)
  end.

(** [to_stdout]: nothing catches what the stream raises. *)
Definition to_stdout (e : env) (text : string) (w : world)
  : world * option exn :=
  match write e with
  | WriteDone => (mk_world (clipboard w) (stdout w ++ text) (taps w), None)
  | WriteFails err written =>
      (mk_world (clipboard w) (stdout w ++ written) (taps w), Some err)
  end.

(** [to_paste] *)
Definition to_paste (e : env) (text : string) (w : world)
  : world * option exn :=
  match to_clipboard e text w with
  | (w1, Some err) => (w1, Some err)
  | (w1, None) =>
      let modifier := (if darwin e then "cmd" else "ctrl")%string in
      let tapped :=
        mk_world (clipboard w1) (stdout w1) (taps w1 ++ [(modifier, "v"%string)]) in
      match paste e with
      | PasteDone => (tapped, None)
      | PasteFails m did_tap =>
          (if did_tap then tapped else w1,
           Some (OutputError
             ("Paste simulation failed (text is still in clipboard): " ++ m)))
      end
  end.

(** [deliver]; [repr] is Python's [repr] on strings. *)
Definition deliver (repr : string -> string) (e : env) (text mode : string)
    (w : world) : world * option exn :=
  if negb (existsb (String.eqb mode) VALID_MODES)
  then (w, Some (ValueError
          ("Invalid output mode " ++ repr mode
           ++ ". Must be one of ('clipboard', 'stdout', 'paste')")))
  else
    let dispatch :=
      [("clipboard"%string, to_clipboard e);
       ("stdout"%string, to_stdout e);
       ("paste"%string, to_paste e)] in
    match dict_get mode dispatch with
    | Some f => f text w
    | None => (w, Some (KeyError mode))
    end.

End Output.

(** ** Text cleaning ([cleaner.py]): whitespace *)

Module Cleaner.

Definition newline : ascii := "010"%char.
Definition space : ascii := " "%char.

(** [text.split("\n")] *)
Fixpoint split_lines (s : string) : list string :=
  match s with
  | EmptyString => [EmptyString]
  | String c rest =>
      if Ascii.eqb c newline then EmptyString :: split_lines rest
      else
        match split_lines rest with
        | line :: lines => String c line :: lines
        | [] => [String c EmptyString]
        end
  end.

(** [re.sub(r" {2,}", " ", line)]: every run of two or more spaces becomes
    one space; a space is dropped when another space follows it. *)
Fixpoint collapse_spaces (s : string) : string :=
  match s with
  | EmptyString => EmptyString
  | String c rest =>
      if Ascii.eqb c space then
        match rest with
        | String c' _ =>
            if Ascii.eqb c' space then collapse_spaces rest
            else String c (collapse_spaces rest)
        | EmptyString => String c EmptyString
        end
      else String c (collapse_spaces rest)
  end.

Definition nonempty (s : string) : bool :=
  match s with EmptyString => false | String _ _ => true end.

(** The list [cleaned] that the loop of [_normalize_whitespace] builds. *)
Definition cleaned_lines (text : string) : list string :=
  filter nonempty
    (map (fun line => strip (collapse_spaces line)) (split_lines text)).

(** [_normalize_whitespace] *)
Definition _normalize_whitespace (text : string) : string :=
  String.concat (String newline EmptyString) (cleaned_lines text).

(** A string without a newline, and one without two spaces in a row. *)
Fixpoint no_newline (s : string) : bool :=
  match s with
  | EmptyString => true
  | String c rest => negb (Ascii.eqb c newline) && no_newline rest
  end.

Fixpoint no_double_space (s : string) : bool :=
  match s with
  | EmptyString => true
  | String c rest =>
      match rest with
      | String c' _ =>
          negb (Ascii.eqb c space && Ascii.eqb c' space) && no_double_space rest
      | EmptyString => true
      end
  end.

Definition first_char (s : string) : option ascii :=
  match s with EmptyString => None | String c _ => Some c end.

(** *** Filler words *)




















End Cleaner.


(** * Properties *)

(** ** Level meter *)

Section LevelMeter.
Local Open Scope R_scope.

Lemma ln_10_pos : 0 < ln 10.
Proof. rewrite <- ln_1. apply ln_increasing; lra. Qed.

Lemma rms_to_db_floor (rms : R) : rms <= 0 -> _rms_to_db rms = -120.
Proof.
  intros H. unfold _rms_to_db. destruct (Rle_dec rms 0); [reflexivity | contradiction].
Qed.

Lemma rms_to_db_positive (rms : R) : 0 < rms -> _rms_to_db rms = 20 * log10 rms.
Proof.
  intros H. unfold _rms_to_db. destruct (Rle_dec rms 0); [lra | reflexivity].
Qed.

Lemma log10_1 : log10 1 = 0.
Proof. unfold log10. rewrite ln_1. unfold Rdiv. apply Rmult_0_l. Qed.

(** [log10 (10 ^ n) = n] and [log10 (/ 10 ^ n) = - n]. *)
Lemma log10_pow10 (n : nat) : log10 (10 ^ n) = INR n.
Proof.
  unfold log10. rewrite ln_pow by lra. field. apply Rgt_not_eq, ln_10_pos.
Qed.

Lemma log10_inv_pow10 (n : nat) : log10 (/ 10 ^ n) = - INR n.
Proof.
  unfold log10. rewrite ln_Rinv by (apply pow_lt; lra).
  rewrite ln_pow by lra. field. apply Rgt_not_eq, ln_10_pos.
Qed.

(** Comparing a logarithm with a rational [p / q] through powers:
    [x ^ q < 10 ^ p] gives [log10 x < p / q]. *)
Lemma log10_lt_ratio (x : R) (p q : nat) :
  0 < x -> (0 < q)%nat -> x ^ q < 10 ^ p -> log10 x < INR p / INR q.
Proof.
  intros Hx Hq Hlt.
  assert (Hq' : 0 < INR q) by (apply lt_0_INR; exact Hq).
  assert (Hln : INR q * ln x < INR p * ln 10).
  { rewrite <- !ln_pow by lra. apply ln_increasing; [apply pow_lt; lra | exact Hlt]. }
  unfold log10. pose proof ln_10_pos as H10.
  apply (Rmult_lt_reg_r (INR q * ln 10)); [apply Rmult_lt_0_compat; lra |].
  replace (ln x / ln 10 * (INR q * ln 10)) with (INR q * ln x) by (field; lra).
  replace (INR p / INR q * (INR q * ln 10)) with (INR p * ln 10) by (field; lra).
  exact Hln.
Qed.

Lemma log10_gt_ratio (x : R) (p q : nat) :
  0 < x -> (0 < q)%nat -> 10 ^ p < x ^ q -> INR p / INR q < log10 x.
Proof.
  intros Hx Hq Hlt.
  assert (Hq' : 0 < INR q) by (apply lt_0_INR; exact Hq).
  assert (Hln : INR p * ln 10 < INR q * ln x).
  { rewrite <- !ln_pow by lra. apply ln_increasing; [apply pow_lt; lra | exact Hlt]. }
  unfold log10. pose proof ln_10_pos as H10.
  apply (Rmult_lt_reg_r (INR q * ln 10)); [apply Rmult_lt_0_compat; lra |].
  replace (ln x / ln 10 * (INR q * ln 10)) with (INR q * ln x) by (field; lra).
  replace (INR p / INR q * (INR q * ln 10)) with (INR p * ln 10) by (field; lra).
  exact Hln.
Qed.

Lemma log10_half : log10 (1 / 2) = - log10 2.
Proof.
  unfold log10. replace (1 / 2) with (/ 2) by lra.
  rewrite ln_Rinv by lra. field. apply Rgt_not_eq, ln_10_pos.
Qed.

(** [5/20 < log10 2 < 7/20], from [10^5 < 2^20 < 10^7]. *)
Lemma log10_2_bounds : 5 / 20 < log10 2 < 7 / 20.
Proof.
  split.
  - replace (5 / 20) with (INR 5 / INR 20) by (simpl; lra).
    apply log10_gt_ratio; [lra | lia | simpl; lra].
  - replace (7 / 20) with (INR 7 / INR 20) by (simpl; lra).
    apply log10_lt_ratio; [lra | lia | simpl; lra].
Qed.

End LevelMeter.

(** ** Normalizer *)

Section Normalizer.
Local Open Scope R_scope.

Lemma fold_max_ge_init (t : list R) (x : R) : x <= fold_left Rmax t x.
Proof.
  revert x. induction t as [| y t IH]; intros x; simpl.
  - lra.
  - eapply Rle_trans; [apply (Rmax_l x y) | apply IH].
Qed.

Lemma fold_max_upper (t : list R) (x y : R) :
  In y t -> y <= fold_left Rmax t x.
Proof.
  revert x. induction t as [| z t IH]; intros x Hin; simpl in *.
  - contradiction.
  - destruct Hin as [-> | Hin].
    + eapply Rle_trans; [apply (Rmax_r x y) | apply fold_max_ge_init].
    + apply IH, Hin.
Qed.

Lemma fold_max_attained (t : list R) (x : R) :
  fold_left Rmax t x = x \/ In (fold_left Rmax t x) t.
Proof.
  revert x. induction t as [| z t IH]; intros x; simpl.
  - left; reflexivity.
  - destruct (IH (Rmax x z)) as [H | H].
    + rewrite H. unfold Rmax. destruct (Rle_dec x z); auto.
    + right; right; exact H.
Qed.

Lemma Rmax_div (a b p : R) : 0 < p -> Rmax (a / p) (b / p) = Rmax a b / p.
Proof.
  intros Hp. assert (0 < / p) by (apply Rinv_0_lt_compat; exact Hp).
  unfold Rmax, Rdiv.
  destruct (Rle_dec (a * / p) (b * / p)) as [H1 | H1];
    destruct (Rle_dec a b) as [H2 | H2]; try reflexivity.
  - assert (a * / p <= b * / p -> a <= b).
    { intros. apply (Rmult_le_reg_r (/ p)); assumption. }
    tauto.
  - exfalso. apply H1. apply Rmult_le_compat_r; lra.
Qed.

Lemma fold_max_div (t : list R) (x p : R) :
  0 < p ->
  fold_left Rmax (map (fun y => y / p) t) (x / p) = fold_left Rmax t x / p.
Proof.
  intros Hp. revert x. induction t as [| z t IH]; intros x; simpl.
  - reflexivity.
  - rewrite Rmax_div by exact Hp. apply IH.
Qed.

Lemma Rabs_div_pos (x p : R) : 0 < p -> Rabs (x / p) = Rabs x / p.
Proof.
  intros Hp. unfold Rdiv. rewrite Rabs_mult.
  rewrite (Rabs_pos_eq (/ p)); [reflexivity |].
  left. apply Rinv_0_lt_compat, Hp.
Qed.

Lemma np_abs_div (l : list R) (p : R) :
  0 < p -> np_abs (map (fun x => x / p) l) = map (fun y => y / p) (np_abs l).
Proof.
  intros Hp. unfold np_abs. rewrite !map_map.
  apply map_ext. intros x. apply Rabs_div_pos, Hp.
Qed.

(** [np.max] is defined exactly on the non-empty arrays. *)
Lemma np_max_nonempty (l : list R) :
  l <> [] -> exists p, np_max l = Return p.
Proof.
  destruct l as [| x t]; [congruence | intros _; eexists; reflexivity].
Qed.

Lemma np_max_div (l : list R) (m p : R) :
  0 < p -> np_max l = Return m ->
  np_max (map (fun y => y / p) l) = Return (m / p).
Proof.
  intros Hp. destruct l as [| x t]; simpl; [discriminate |].
  intros [= <-]. f_equal. apply fold_max_div, Hp.
Qed.

Lemma np_max_upper (l : list R) (m y : R) :
  np_max l = Return m -> In y l -> y <= m.
Proof.
  destruct l as [| x t]; simpl; [discriminate |].
  intros [= <-] [-> | Hin].
  - apply fold_max_ge_init.
  - apply fold_max_upper, Hin.
Qed.

Lemma np_max_attained (l : list R) (m : R) : np_max l = Return m -> In m l.
Proof.
  destruct l as [| x t]; simpl; [discriminate |].
  intros [= <-]. destruct (fold_max_attained t x) as [-> | H]; auto.
Qed.

(** The peak of a buffer with a non-zero sample is positive. *)
Lemma peak_positive (l : list R) (m : R) :
  np_max (np_abs l) = Return m ->
  (exists x, In x l /\ x <> 0) -> 0 < m.
Proof.
  intros Hm (x & Hin & Hx).
  assert (Rabs x <= m).
  { apply (np_max_upper _ _ _ Hm). unfold np_abs. apply in_map, Hin. }
  pose proof (Rabs_pos_lt x Hx). lra.
Qed.

(** The peak of an all-zero buffer is zero. *)
Lemma peak_all_zero (l : list R) (m : R) :
  np_max (np_abs l) = Return m -> Forall (fun x => x = 0) l -> m = 0.
Proof.
  intros Hm Hz. apply np_max_attained in Hm. unfold np_abs in Hm.
  apply in_map_iff in Hm. destruct Hm as (x & <- & Hin).
  rewrite Forall_forall in Hz. rewrite (Hz x Hin). apply Rabs_R0.
Qed.

Lemma map_div_1 (l : list R) : map (fun x => x / 1) l = l.
Proof.
  rewrite <- (map_id l) at 2. apply map_ext. intros x. field.
Qed.

(** What [_normalize] returns on a non-empty buffer, by the sign of the peak. *)
Lemma normalize_scaled (a : ndarray) (p : R) :
  np_max (np_abs (data a)) = Return p -> 0 < p ->
  _normalize a = Return (mk_ndarray Float32 (map (fun x => x / p) (data a))).
Proof.
  intros Hp Hpos. unfold _normalize. rewrite Hp. simpl.
  destruct (Rlt_dec 0 p); [reflexivity | contradiction].
Qed.

Lemma normalize_unscaled (a : ndarray) (p : R) :
  np_max (np_abs (data a)) = Return p -> ~ 0 < p ->
  _normalize a = Return (mk_ndarray Float32 (data a)).
Proof.
  intros Hp Hpos. unfold _normalize. rewrite Hp. simpl.
  destruct (Rlt_dec 0 p); [contradiction | reflexivity].
Qed.

Lemma normalize_unit_peak (a : ndarray) :
  np_max (np_abs (data a)) = Return 1 ->
  _normalize a = Return (mk_ndarray Float32 (data a)).
Proof.
  intros Hp. rewrite (normalize_scaled a 1 Hp) by lra.
  rewrite map_div_1. reflexivity.
Qed.

(** After scaling by a positive peak the peak is one. *)
Lemma peak_after_scaling (l : list R) (p : R) :
  np_max (np_abs l) = Return p -> 0 < p ->
  np_max (np_abs (map (fun x => x / p) l)) = Return 1.
Proof.
  intros Hp Hpos. rewrite np_abs_div by exact Hpos.
  rewrite (np_max_div _ p p Hpos Hp). f_equal. field. lra.
Qed.

Lemma normalize_returns (a : ndarray) :
  data a <> [] -> exists out, _normalize a = Return out.
Proof.
  intros Hne.
  destruct (np_max_nonempty (np_abs (data a))) as [p Hp].
  { unfold np_abs. destruct (data a); [congruence | discriminate]. }
  destruct (Rlt_dec 0 p) as [Hpos | Hpos].
  - eexists. apply (normalize_scaled a p Hp Hpos).
  - eexists. apply (normalize_unscaled a p Hp Hpos).
Qed.

Lemma normalize_idempotent_on (a out : ndarray) :
  _normalize a = Return out -> _normalize out = Return out.
Proof.
  unfold _normalize at 1.
  destruct (np_max (np_abs (data a))) as [p | e |] eqn:Hp; simpl; try discriminate.
  destruct (Rlt_dec 0 p) as [Hpos | Hpos]; intros [= <-].
  - unfold astype, array_div; simpl.
    apply (normalize_unit_peak (mk_ndarray Float32 _)).
    simpl. apply peak_after_scaling; assumption.
  - unfold astype; simpl.
    apply (normalize_unscaled (mk_ndarray Float32 _) p); simpl; assumption.
Qed.

End Normalizer.

(** ** Levels of the test blocks *)

Section BlockLevels.
Local Open Scope R_scope.

Lemma np_sum_zeros (n : nat) : np_sum (map (fun x => x * x) (zeros n)) = 0.
Proof.
  induction n as [| n IH]; [reflexivity |].
  change (zeros (S n)) with (0 :: zeros n).
  cbn [map np_sum fold_right]. fold (np_sum (map (fun x => x * x) (zeros n))).
  rewrite IH. lra.
Qed.

Lemma np_sum_ones (n : nat) : np_sum (map (fun x => x * x) (ones n)) = INR n.
Proof.
  induction n as [| n IH]; [reflexivity |].
  change (ones (S n)) with (1 :: ones n).
  cbn [map np_sum fold_right]. fold (np_sum (map (fun x => x * x) (ones n))).
  rewrite IH, S_INR. lra.
Qed.

Lemma len_zeros (n : nat) : len (zeros n) = Z.of_nat n.
Proof. unfold len, zeros. rewrite repeat_length. reflexivity. Qed.

Lemma len_ones (n : nat) : len (ones n) = Z.of_nat n.
Proof. unfold len, ones. rewrite repeat_length. reflexivity. Qed.

(** Digital silence sits on the floor of the level meter. *)
Lemma chunk_db_zeros (n : nat) : chunk_db (zeros (S n)) = Some (-120).
Proof.
  unfold chunk_db, chunk_rms, np_mean.
  pose proof (np_sum_zeros (S n)) as Hs.
  change (map (fun x => x * x) (zeros (S n)))
    with (0 * 0 :: map (fun x => x * x) (zeros n)) in *.
  rewrite Hs. cbn [option_map]. f_equal.
  unfold Rdiv. rewrite Rmult_0_l, sqrt_0. apply rms_to_db_floor. lra.
Qed.

(** A full-scale block measures 0 dB. *)
Lemma chunk_db_ones (n : nat) : chunk_db (ones (S n)) = Some 0.
Proof.
  unfold chunk_db, chunk_rms, np_mean.
  pose proof (np_sum_ones (S n)) as Hs.
  change (map (fun x => x * x) (ones (S n)))
    with (1 * 1 :: map (fun x => x * x) (ones n)) in *.
  rewrite Hs. cbn [option_map List.length]. rewrite length_map.
  unfold ones. rewrite repeat_length. f_equal.
  assert (Hn : INR (S n) <> 0) by (apply not_0_INR; discriminate).
  replace (INR (S n) / INR (S n)) with 1 by (field; exact Hn).
  rewrite sqrt_1, rms_to_db_positive by lra.
  rewrite log10_1. lra.
Qed.

Lemma is_silent_zeros (cfg : config) (n : nat) :
  -120 < threshold_db cfg -> is_silent cfg (zeros (S n)) = true.
Proof.
  intros H. unfold is_silent. rewrite chunk_db_zeros. simpl.
  destruct (Rlt_dec (-120) (threshold_db cfg)); [reflexivity | contradiction].
Qed.

Lemma is_silent_ones (cfg : config) (n : nat) :
  threshold_db cfg <= 0 -> is_silent cfg (ones (S n)) = false.
Proof.
  intros H. unfold is_silent. rewrite chunk_db_ones. simpl.
  destruct (Rlt_dec 0 (threshold_db cfg)); [lra | reflexivity].
Qed.

End BlockLevels.

(** ** Endpointing: one block *)

Section OneBlock.
Local Open Scope Z_scope.
Variable cfg : config.

Lemma accumulate_chunks (st : state) (c : chunk) :
  chunks (accumulate cfg st c) = chunks st ++ [c].
Proof. reflexivity. Qed.

Lemma accumulate_total (st : state) (c : chunk) :
  total_samples (accumulate cfg st c) = total_samples st + len c.
Proof. reflexivity. Qed.

Lemma accumulate_silent (st : state) (c : chunk) :
  silent_samples (accumulate cfg st c) =
  if is_silent cfg c then silent_samples st + len c else 0.
Proof. reflexivity. Qed.

Lemma state_of_on_block (st : state) (c : chunk) :
  state_of (on_block cfg st c) = accumulate cfg st c.
Proof.
  unfold on_block.
  destruct (_ && _); [reflexivity |].
  destruct (_ <=? _); reflexivity.
Qed.

Lemma silence_test_reflect (st' : state) :
  (silent_samples_needed cfg <=? silent_samples st')
  && (silent_samples_needed cfg <? total_samples st') = true
  <-> silence_test cfg st'.
Proof.
  unfold silence_test. rewrite andb_true_iff, Z.leb_le, Z.ltb_lt. tauto.
Qed.

Lemma on_block_cases (st : state) (c : chunk) :
  let st' := accumulate cfg st c in
  (silence_test cfg st' /\ on_block cfg st c = Break BreakSilence st') \/
  (~ silence_test cfg st' /\ max_test cfg st' /\ on_block cfg st c = Break BreakMax st') \/
  (~ silence_test cfg st' /\ ~ max_test cfg st' /\ on_block cfg st c = Continue st').
Proof.
  intros st'. unfold on_block. fold st'.
  destruct ((silent_samples_needed cfg <=? silent_samples st')
            && (silent_samples_needed cfg <? total_samples st')) eqn:Hs.
  - left. split; [apply silence_test_reflect, Hs | reflexivity].
  - right.
    assert (Hn : ~ silence_test cfg st').
    { intros H. apply silence_test_reflect in H. congruence. }
    unfold max_test.
    destruct (max_samples cfg <=? total_samples st') eqn:Hm.
    + left. apply Z.leb_le in Hm. auto.
    + right. apply Z.leb_gt in Hm. repeat split; auto. lia.
Qed.

End OneBlock.

(** ** The queue *)

Section QueueFacts.
Local Open Scope Z_scope.

Lemma full_unbounded (q : Queue) : maxsize q = 0 -> full q = false.
Proof. intros H. unfold full. rewrite H. reflexivity. Qed.

Lemma put_unbounded (q : Queue) (item : chunk) :
  maxsize q = 0 -> put q item = Some (mk_Queue 0 (items q ++ [item])).
Proof. intros H. unfold put. rewrite (full_unbounded q H), H. reflexivity. Qed.

Lemma get_oldest (m : Z) (c : chunk) (rest : list chunk) :
  get (mk_Queue m (c :: rest)) = Some (c, mk_Queue m rest).
Proof. reflexivity. Qed.

Lemma get_keeps_maxsize (q q' : Queue) (c : chunk) :
  get q = Some (c, q') -> maxsize q' = maxsize q /\ items q = c :: items q'.
Proof.
  unfold get. destruct (items q) as [| x rest] eqn:E; [discriminate |].
  intros [= <- <-]. simpl. auto.
Qed.

End QueueFacts.

(** ** Endpointing: the loop *)

Section Loop.
Local Open Scope Z_scope.
Variable cfg : config.

Lemma total_len_app (l1 l2 : list chunk) :
  total_len (l1 ++ l2) = total_len l1 + total_len l2.
Proof.
  induction l1 as [| c l1 IH]; simpl; [reflexivity | rewrite IH; lia].
Qed.

Lemma total_len_snoc (l : list chunk) (c : chunk) :
  total_len (l ++ [c]) = total_len l + len c.
Proof. rewrite total_len_app. simpl. lia. Qed.

Lemma trailing_silent_run_snoc (cs : list chunk) (c : chunk) :
  trailing_silent_run cfg (cs ++ [c]) =
  if is_silent cfg c then trailing_silent_run cfg cs ++ [c] else [].
Proof.
  unfold trailing_silent_run. rewrite rev_app_distr. simpl.
  destruct (is_silent cfg c); reflexivity.
Qed.

Lemma counters_ok_initial : counters_ok cfg initial_state.
Proof. split; reflexivity. Qed.

Lemma counters_ok_accumulate (st : state) (c : chunk) :
  counters_ok cfg st -> counters_ok cfg (accumulate cfg st c).
Proof.
  intros [Hs Ht]. split.
  - rewrite accumulate_silent, accumulate_chunks, trailing_silent_run_snoc.
    destruct (is_silent cfg c); [| reflexivity].
    rewrite total_len_snoc, Hs. reflexivity.
  - rewrite accumulate_total, accumulate_chunks, total_len_snoc, Ht. reflexivity.
Qed.

Lemma capture_loop_counters (t : list action) (s : session) :
  counters_ok cfg (st s) ->
  counters_ok cfg (st (session_of (capture_loop cfg s t))).
Proof.
  revert s. induction t as [| a t IH]; intros s Hs; simpl.
  - exact Hs.
  - destruct a as [indata |].
    + destruct (put (audio_queue s) indata); [apply IH |]; exact Hs.
    + destruct (get (audio_queue s)) as [[c q'] |]; [| apply IH; exact Hs].
      pose proof (state_of_on_block cfg (st s) c) as Hst.
      pose proof (counters_ok_accumulate (st s) c Hs) as Hacc.
      destruct (on_block cfg (st s) c) as [st' | why st']; simpl in Hst; subst st'.
      * apply IH. exact Hacc.
      * exact Hacc.
Qed.

(** The loop is left only after a block has been appended. *)
Lemma capture_loop_exit_nonempty (t : list action) (s s' : session)
    (why : loop_exit) :
  capture_loop cfg s t = Exited why s' -> chunks (st s') <> [].
Proof.
  revert s. induction t as [| a t IH]; intros s; simpl; [discriminate |].
  destruct a as [indata |].
  - destruct (put (audio_queue s) indata); [apply IH | discriminate].
  - destruct (get (audio_queue s)) as [[c q'] |]; [| apply IH].
    pose proof (state_of_on_block cfg (st s) c) as Hst.
    destruct (on_block cfg (st s) c) as [st' | why' st']; simpl in Hst.
    + apply IH.
    + intros [= _ <-]. simpl. rewrite Hst, accumulate_chunks.
      intros H. apply app_eq_nil in H. destruct H; discriminate.
Qed.

(** Without a delivered block the loop keeps polling. *)
Lemma capture_loop_polling (n : nat) (s : session) :
  items (audio_queue s) = [] ->
  capture_loop cfg s (repeat Iterate n) = Looping s.
Proof.
  intros Hq. induction n as [| n IH]; simpl; [reflexivity |].
  unfold get. rewrite Hq. exact IH.
Qed.

(** Nothing is lost and nothing is reordered between the callback and the
    loop: consumed blocks followed by queued blocks are the delivered blocks. *)
Lemma capture_loop_fifo (t : list action) (s s' : session) :
  maxsize (audio_queue s) = 0 ->
  capture_loop cfg s t = Looping s' ->
  maxsize (audio_queue s') = 0 /\
  chunks (st s') ++ items (audio_queue s') =
  chunks (st s) ++ items (audio_queue s) ++ delivered t.
Proof.
  revert s. induction t as [| a t IH]; intros s Hm; simpl.
  - intros [= <-]. rewrite app_nil_r. auto.
  - destruct a as [indata |].
    + rewrite (put_unbounded _ indata Hm). intros H.
      apply IH in H; [| reflexivity]. simpl in H.
      destruct H as [H1 H2]. split; [exact H1 |].
      rewrite H2, <- !app_assoc. reflexivity.
    + destruct (get (audio_queue s)) as [[c q'] |] eqn:Hg; [| apply IH; exact Hm].
      apply get_keeps_maxsize in Hg. destruct Hg as [Hm' Hi].
      pose proof (state_of_on_block cfg (st s) c) as Hst.
      destruct (on_block cfg (st s) c) as [st' | why st']; simpl in Hst;
        [| discriminate].
      intros H. apply IH in H; [| simpl; congruence]. simpl in H.
      destruct H as [H1 H2]. split; [exact H1 |].
      rewrite H2, Hst, accumulate_chunks, Hi, <- !app_assoc. reflexivity.
Qed.

(** A burst of callbacks with no consumer iteration only grows the queue. *)
Lemma capture_loop_burst (cs : list chunk) (s : session) :
  maxsize (audio_queue s) = 0 ->
  capture_loop cfg s (map Callback cs) =
  Looping (mk_session (mk_Queue 0 (items (audio_queue s) ++ cs)) (st s)).
Proof.
  revert s. induction cs as [| c cs IH]; intros s Hm; simpl.
  - rewrite app_nil_r. destruct s as [[m i] x]. simpl in *. subst m. reflexivity.
  - rewrite (put_unbounded _ c Hm). rewrite IH by reflexivity. simpl.
    rewrite <- app_assoc. reflexivity.
Qed.

(** With the queue of [record_until_silence] the driver thread never waits. *)
Lemma capture_loop_never_stalls (t : list action) (s s' : session) :
  maxsize (audio_queue s) = 0 -> capture_loop cfg s t <> Stalled s'.
Proof.
  revert s. induction t as [| a t IH]; intros s Hm; simpl; [discriminate |].
  destruct a as [indata |].
  - rewrite (put_unbounded _ indata Hm). apply IH. reflexivity.
  - destruct (get (audio_queue s)) as [[c q'] |] eqn:Hg; [| apply IH; exact Hm].
    apply get_keeps_maxsize in Hg. destruct Hg as [Hm' _].
    destruct (on_block cfg (st s) c); [| discriminate].
    apply IH. simpl. congruence.
Qed.

End Loop.

Section SteadySilence.
Local Open Scope Z_scope.
Variable cfg : config.

Lemma on_block_continue (st0 : state) (c : chunk) :
  ~ silence_test cfg (accumulate cfg st0 c) ->
  ~ max_test cfg (accumulate cfg st0 c) ->
  on_block cfg st0 c = Continue (accumulate cfg st0 c).
Proof.
  intros Hs Hm.
  destruct (on_block_cases cfg st0 c) as [[H _] | [(_ & H & _) | (_ & _ & H)]];
    [contradiction | contradiction | exact H].
Qed.

(** [k] silent blocks from the very start of a session: as long as the total
    does not exceed the silence bound, the loop keeps capturing. *)
Lemma capture_loop_steady_silence (n k : nat) (st0 : state)
    (rest : list action) :
  (-120 < threshold_db cfg)%R ->
  silent_samples st0 = total_samples st0 ->
  total_samples st0 + Z.of_nat k * Z.of_nat (S n) <= silent_samples_needed cfg ->
  silent_samples_needed cfg < max_samples cfg ->
  capture_loop cfg (mk_session new_Queue st0)
    (steady_trace (zeros (S n)) k ++ rest) =
  capture_loop cfg
    (mk_session new_Queue
       (mk_state (chunks st0 ++ repeat (zeros (S n)) k)
                 (silent_samples st0 + Z.of_nat k * Z.of_nat (S n))
                 (total_samples st0 + Z.of_nat k * Z.of_nat (S n))))
    rest.
Proof.
  intros Hthr. revert st0.
  induction k as [| k IH]; intros st0 Heq Hle Hmax.
  - simpl. rewrite app_nil_r, !Z.add_0_r. destruct st0; reflexivity.
  - cbn [steady_trace app capture_loop]. cbn [put full new_Queue audio_queue
      maxsize items Z.ltb Z.compare andb get st app].
    assert (Hacc : accumulate cfg st0 (zeros (S n)) =
                   mk_state (chunks st0 ++ [zeros (S n)])
                            (silent_samples st0 + Z.of_nat (S n))
                            (total_samples st0 + Z.of_nat (S n))).
    { unfold accumulate. fold (is_silent cfg (zeros (S n))).
      rewrite (is_silent_zeros cfg n Hthr), len_zeros. reflexivity. }
    rewrite on_block_continue.
    + rewrite Hacc. rewrite IH; cbn [chunks silent_samples total_samples].
      * f_equal. f_equal. f_equal.
        -- rewrite <- app_assoc. reflexivity.
        -- lia.
        -- lia.
      * lia.
      * lia.
      * exact Hmax.
    + rewrite Hacc. unfold silence_test. cbn [silent_samples total_samples]. lia.
    + rewrite Hacc. unfold max_test. cbn [total_samples]. lia.
Qed.

End SteadySilence.

(** * The claims *)

Section LevelMeterClaims.
Local Open Scope R_scope.

(** C5: for every non-positive RMS the level meter returns exactly -120.0;
    for RMS = 1.0 the result is within 0.01 of 0.0; for RMS = 0.5 the result
    lies strictly between -7 and -5. *)
Theorem rms_to_db_reference_points :
  (forall rms : R, rms <= 0 -> _rms_to_db rms = -120) /\
  Rabs (_rms_to_db 1 - 0) < 1 / 100 /\
  -7 < _rms_to_db (1 / 2) < -5.
Proof.
  split; [exact rms_to_db_floor |]. split.
  - rewrite rms_to_db_positive by lra. rewrite log10_1.
    replace (20 * 0 - 0) with 0 by lra. rewrite Rabs_R0. lra.
  - rewrite rms_to_db_positive by lra. rewrite log10_half.
    pose proof log10_2_bounds. lra.
Qed.

Lemma rms_to_db_reference_points_witness :
  _rms_to_db 0 = -120 /\ _rms_to_db (-1) = -120.
Proof.
  split; apply (proj1 rms_to_db_reference_points); lra.
Defined.

(** C9, as stated, fails: the value -120.0 is not produced only for
    non-positive RMS, the positive RMS 1e-6 yields it through the formula. *)
Lemma floor_value_at_positive_rms :
  0 < / 10 ^ 6 /\ _rms_to_db (/ 10 ^ 6) = -120 /\
  ~ (forall rms : R, _rms_to_db rms = -120 -> rms <= 0).
Proof.
  assert (Hpos : 0 < / 10 ^ 6) by (apply Rinv_0_lt_compat, pow_lt; lra).
  assert (Hval : _rms_to_db (/ 10 ^ 6) = -120).
  { rewrite rms_to_db_positive by exact Hpos.
    rewrite log10_inv_pow10. simpl. lra. }
  repeat split; [exact Hpos | exact Hval |].
  intros H. specialize (H _ Hval). lra.
Qed.

(** C9, amended: some strictly positive RMS (1e-10) has a level strictly
    below -120.0; the constant branch is taken only for non-positive RMS,
    every positive RMS goes through 20 * log10 unclamped; so -120.0 is not a
    lower bound of the level meter. *)
Theorem rms_to_db_not_clamped :
  (0 < / 10 ^ 10 /\ _rms_to_db (/ 10 ^ 10) < -120) /\
  (forall rms : R, 0 < rms -> _rms_to_db rms = 20 * log10 rms) /\
  ~ (forall rms : R, -120 <= _rms_to_db rms).
Proof.
  assert (Hpos : 0 < / 10 ^ 10) by (apply Rinv_0_lt_compat, pow_lt; lra).
  assert (Hval : _rms_to_db (/ 10 ^ 10) = -200).
  { rewrite rms_to_db_positive by exact Hpos.
    rewrite log10_inv_pow10. simpl. lra. }
  split; [split; [exact Hpos | lra] |].
  split; [exact rms_to_db_positive |].
  intros H. specialize (H (/ 10 ^ 10)). lra.
Qed.

Lemma rms_to_db_not_clamped_witness :
  _rms_to_db (1 / 2) = 20 * log10 (1 / 2).
Proof.
  apply (proj1 (proj2 rms_to_db_not_clamped)). lra.
Defined.

End LevelMeterClaims.

Section NormalizerClaims.
Local Open Scope R_scope.

(** C3, as stated, fails on the zero-length buffer: it is a buffer, all of
    its samples are zero, and [_normalize] raises on it instead of returning
    it unchanged. *)
Lemma normalize_raises_on_empty_buffer :
  Forall (fun x => x = 0) (data empty_float32) /\
  (forall out, _normalize empty_float32 <> Return out) /\
  _normalize empty_float32 =
  Raise (ValueError
    "zero-size array to reduction operation maximum which has no identity").
Proof.
  split; [constructor |]. split; [intros out; discriminate | reflexivity].
Qed.

(** C3, amended: for every non-empty buffer x, normalize(normalize(x)) ==
    normalize(x); normalizing a unit-peak buffer leaves its samples
    unchanged, and so does normalizing a non-empty all-zero buffer (no
    division happens); the result is the float32 array of those samples,
    which is the input itself when the input is float32. *)
Theorem normalize_idempotent_nonempty :
  (forall a : ndarray, data a <> [] ->
     exists out, _normalize a = Return out /\ _normalize out = Return out) /\
  (forall a : ndarray, np_max (np_abs (data a)) = Return 1 ->
     _normalize a = Return (astype Float32 a)) /\
  (forall a : ndarray, data a <> [] -> Forall (fun x => x = 0) (data a) ->
     _normalize a = Return (astype Float32 a)) /\
  (forall a : ndarray, dtype a = Float32 -> astype Float32 a = a).
Proof.
  repeat split.
  - intros a Hne. destruct (normalize_returns a Hne) as [out Hout].
    exists out. split; [exact Hout | exact (normalize_idempotent_on a out Hout)].
  - intros a Hp. apply normalize_unit_peak, Hp.
  - intros a Hne Hz.
    destruct (np_max_nonempty (np_abs (data a))) as [p Hp].
    { unfold np_abs. destruct (data a); [congruence | discriminate]. }
    pose proof (peak_all_zero _ _ Hp Hz) as H0.
    apply (normalize_unscaled a p Hp). lra.
  - intros [t l] Ht. simpl in Ht. subst t. reflexivity.
Qed.

Lemma normalize_idempotent_nonempty_witness :
  (exists out, _normalize (mk_ndarray Float32 [0; 1 / 2; - (1 / 4)]) = Return out
               /\ _normalize out = Return out) /\
  _normalize (mk_ndarray Float32 [1; - (1 / 2)]) =
  Return (mk_ndarray Float32 [1; - (1 / 2)]) /\
  _normalize (mk_ndarray Float32 [0; 0; 0]) =
  Return (mk_ndarray Float32 [0; 0; 0]).
Proof.
  split; [| split].
  - apply (proj1 normalize_idempotent_nonempty). simpl. discriminate.
  - apply (proj1 (proj2 normalize_idempotent_nonempty)
             (mk_ndarray Float32 [1; - (1 / 2)])).
    simpl. f_equal. rewrite Rabs_R1, Rabs_left by lra.
    unfold Rmax. destruct (Rle_dec 1 (- - (1 / 2))); lra.
  - apply (proj1 (proj2 (proj2 normalize_idempotent_nonempty))
             (mk_ndarray Float32 [0; 0; 0])).
    + simpl. discriminate.
    + simpl. repeat constructor.
Defined.

(** C4: for every buffer with at least one non-zero sample, the maximum
    absolute sample value of the normalized buffer is exactly 1.0, and the
    output is a 32-bit float array (the representation of a float32 input)
    of the same length. *)
Theorem normalize_peak_is_one (a : ndarray) :
  (exists x, In x (data a) /\ x <> 0) ->
  exists out,
    _normalize a = Return out /\
    np_max (np_abs (data out)) = Return 1 /\
    dtype out = Float32 /\
    (dtype a = Float32 -> dtype out = dtype a) /\
    List.length (data out) = List.length (data a).
Proof.
  intros Hnz.
  destruct (np_max_nonempty (np_abs (data a))) as [p Hp].
  { destruct Hnz as (x & Hin & _). unfold np_abs.
    destruct (data a); [contradiction | discriminate]. }
  pose proof (peak_positive _ _ Hp Hnz) as Hpos.
  eexists. split; [apply (normalize_scaled a p Hp Hpos) |].
  simpl. split; [apply peak_after_scaling; assumption |].
  split; [reflexivity |]. split; [congruence | apply length_map].
Qed.

Lemma normalize_peak_is_one_witness :
  exists out,
    _normalize (mk_ndarray Float32 [0; 1 / 2; - (1 / 4)]) = Return out /\
    np_max (np_abs (data out)) = Return 1 /\
    dtype out = Float32 /\
    (Float32 = Float32 -> dtype out = Float32) /\
    List.length (data out) = 3%nat.
Proof.
  apply (normalize_peak_is_one (mk_ndarray Float32 [0; 1 / 2; - (1 / 4)])).
  exists (1 / 2). split; [simpl; auto | lra].
Defined.

End NormalizerClaims.

Section EndpointingClaims.
Local Open Scope Z_scope.

Lemma capture_loop_exit_reason (cfg : config) (t : list action)
    (s s' : session) (why : loop_exit) :
  capture_loop cfg s t = Exited why s' ->
  match why with
  | BreakSilence => silence_test cfg (st s')
  | BreakMax => ~ silence_test cfg (st s') /\ max_test cfg (st s')
  end.
Proof.
  revert s. induction t as [| a t IH]; intros s; simpl; [discriminate |].
  destruct a as [indata |].
  - destruct (put (audio_queue s) indata); [apply IH | discriminate].
  - destruct (get (audio_queue s)) as [[c q'] |]; [| apply IH].
    destruct (on_block_cases cfg (st s) c)
      as [[H1 H] | [(H1 & H2 & H) | (H1 & H2 & H)]]; rewrite H.
    + intros [= <- <-]. exact H1.
    + intros [= <- <-]. split; assumption.
    + apply IH.
Qed.

(** C1, as stated, fails: with an 8 s silence duration, 125 silent blocks of
    1024 samples bring both counters to exactly 8 * 16000 = 128000; the
    stated condition (silent >= bound and total >= bound) holds on the last
    block, and the loop goes on. *)
Lemma silence_break_needs_total_above_bound :
  let cfg := long_silence_config in
  let st124 := mk_state (repeat (zeros 1024) 124) 126976 126976 in
  let st125 := accumulate cfg st124 (zeros 1024) in
  capture_loop cfg initial_session (steady_trace (zeros 1024) 124) =
    Looping (mk_session new_Queue st124) /\
  silent_samples_needed cfg = 128000 /\ max_samples cfg = 480000 /\
  silent_samples st125 = 128000 /\ total_samples st125 = 128000 /\
  ((silent_samples_needed cfg <= silent_samples st125 /\
    silent_samples_needed cfg <= total_samples st125) \/
   max_samples cfg <= total_samples st125) /\
  on_block cfg st124 (zeros 1024) = Continue st125.
Proof.
  intros cfg st124 st125.
  assert (Hthr : (-120 < threshold_db cfg)%R) by (simpl; lra).
  assert (Hn : silent_samples_needed cfg = 128000) by reflexivity.
  assert (Hm : max_samples cfg = 480000) by reflexivity.
  assert (H125 : st125 = mk_state (repeat (zeros 1024) 124 ++ [zeros 1024])
                           128000 128000).
  { unfold st125, accumulate. fold (is_silent cfg (zeros 1024)).
    rewrite (is_silent_zeros cfg 1023 Hthr), len_zeros. reflexivity. }
  split.
  - pose proof (capture_loop_steady_silence cfg 1023 124 initial_state []
                  Hthr eq_refl) as H.
    rewrite app_nil_r in H.
    change initial_session with (mk_session new_Queue initial_state).
    rewrite H.
    + reflexivity.
    + rewrite Hn. simpl. lia.
    + rewrite Hn, Hm. lia.
  - rewrite H125, Hn, Hm. cbn [silent_samples total_samples].
    repeat split; try lia.
    rewrite <- H125. apply on_block_continue; fold st125; rewrite H125.
    + unfold silence_test. rewrite Hn.
      cbn [silent_samples total_samples]. lia.
    + unfold max_test. rewrite Hm. cbn [total_samples]. lia.
Qed.

(** The bounds of the two tests are truncated sample counts. With a silence
    duration of 1024.5 samples, one loud block followed by one silent block
    of 1024 samples ends the session on the silence test, although the 1024
    silent samples are fewer than silenceDuration * sampleRate. *)
Lemma silence_bound_is_truncated :
  let cfg := fractional_config in
  let st1 := mk_state [ones 1024] 0 1024 in
  let st2 := mk_state [ones 1024; zeros 1024] 1024 2048 in
  on_block cfg initial_state (ones 1024) = Continue st1 /\
  on_block cfg st1 (zeros 1024) = Break BreakSilence st2 /\
  silent_samples_needed cfg = 1024 /\
  (inject_Z (silent_samples st2) < silence_duration cfg * inject_Z SAMPLE_RATE)%Q /\
  (inject_Z (total_samples st2) < max_duration cfg * inject_Z SAMPLE_RATE)%Q.
Proof.
  intros cfg st1 st2.
  assert (Hlo : (-120 < threshold_db cfg)%R) by (simpl; lra).
  assert (Hhi : (threshold_db cfg <= 0)%R) by (simpl; lra).
  assert (Hn : silent_samples_needed cfg = 1024) by reflexivity.
  assert (Hm : max_samples cfg = 480000) by reflexivity.
  assert (H1 : accumulate cfg initial_state (ones 1024) = st1).
  { unfold accumulate. fold (is_silent cfg (ones 1024)).
    rewrite (is_silent_ones cfg 1023 Hhi), len_ones. reflexivity. }
  assert (H2 : accumulate cfg st1 (zeros 1024) = st2).
  { unfold accumulate. fold (is_silent cfg (zeros 1024)).
    rewrite (is_silent_zeros cfg 1023 Hlo), len_zeros. reflexivity. }
  split; [| split; [| split; [exact Hn | split; reflexivity]]].
  - rewrite <- H1. apply on_block_continue; rewrite H1.
    + unfold silence_test. rewrite Hn. cbn [st1 silent_samples]. lia.
    + unfold max_test. rewrite Hm. cbn [st1 total_samples]. lia.
  - destruct (on_block_cases cfg st1 (zeros 1024))
      as [[_ H] | [(H & _) | (H & _)]]; rewrite H2 in *; [exact H | |];
      exfalso; apply H; unfold silence_test; rewrite Hn;
      cbn [st2 silent_samples total_samples]; lia.
Qed.

(** C1, amended: while capturing, processing one block ends the session
    exactly when (accumulated silent samples >= N and total accumulated
    samples > N, strictly) or total accumulated samples >= M, where
    N = int(silenceDuration * sampleRate) and M = int(maxDuration *
    sampleRate); the silence test is evaluated before the max-duration test,
    so every block and every terminating session leaves the loop through
    exactly one of the two breaks. *)
Theorem on_block_breaks_exactly_when (cfg : config) :
  (forall (st0 : state) (c : chunk),
     let st' := accumulate cfg st0 c in
     ((exists why, on_block cfg st0 c = Break why st')
        <-> silence_test cfg st' \/ max_test cfg st') /\
     (on_block cfg st0 c = Break BreakSilence st' <-> silence_test cfg st') /\
     (on_block cfg st0 c = Break BreakMax st'
        <-> ~ silence_test cfg st' /\ max_test cfg st') /\
     (on_block cfg st0 c = Continue st'
        <-> ~ silence_test cfg st' /\ ~ max_test cfg st')) /\
  (forall (t : list action) (why : loop_exit) (s : session),
     capture_loop cfg initial_session t = Exited why s ->
     match why with
     | BreakSilence => silence_test cfg (st s)
     | BreakMax => ~ silence_test cfg (st s) /\ max_test cfg (st s)
     end).
Proof.
  split.
  - intros st0 c st'.
    destruct (on_block_cases cfg st0 c)
      as [[H1 H] | [(H1 & H2 & H) | (H1 & H2 & H)]]; fold st' in H1, H;
      try fold st' in H2; rewrite H;
      (split; [| split; [| split]]); split; intros Hx;
      try tauto; try congruence; try (eexists; reflexivity).
    destruct Hx as [why Hw]. discriminate.
  - intros t why s H. exact (capture_loop_exit_reason cfg t _ _ _ H).
Qed.

End EndpointingClaims.

Section EndpointingClaims2.
Local Open Scope Z_scope.

Lemma accumulate_ones (cfg : config) (st0 : state) (n : nat) :
  (threshold_db cfg <= 0)%R ->
  accumulate cfg st0 (ones (S n)) =
  mk_state (chunks st0 ++ [ones (S n)]) 0 (total_samples st0 + Z.of_nat (S n)).
Proof.
  intros H. unfold accumulate. fold (is_silent cfg (ones (S n))).
  rewrite (is_silent_ones cfg n H), len_ones. reflexivity.
Qed.

Lemma accumulate_zeros (cfg : config) (st0 : state) (n : nat) :
  (-120 < threshold_db cfg)%R ->
  accumulate cfg st0 (zeros (S n)) =
  mk_state (chunks st0 ++ [zeros (S n)])
           (silent_samples st0 + Z.of_nat (S n))
           (total_samples st0 + Z.of_nat (S n)).
Proof.
  intros H. unfold accumulate. fold (is_silent cfg (zeros (S n))).
  rewrite (is_silent_zeros cfg n H), len_zeros. reflexivity.
Qed.

(** A session cut by the max-duration test: 1/16 s is 1000 samples, the
    first full-scale block of 1024 samples already exceeds it. *)
Lemma capture_loop_one_loud_block :
  capture_loop short_config initial_session [Callback (ones 1024); Iterate]
    = Exited BreakMax (mk_session new_Queue (mk_state [ones 1024] 0 1024)).
Proof.
  set (cfg := short_config).
  assert (Hthr : (threshold_db cfg <= 0)%R) by (simpl; lra).
  pose proof (accumulate_ones cfg initial_state 1023 Hthr) as Hacc.
  cbn [capture_loop initial_session put full new_Queue audio_queue maxsize
       items Z.ltb Z.compare andb get st app].
  destruct (on_block_cases cfg initial_state (ones 1024))
    as [[H1 H] | [(H1 & H2 & H) | (H1 & H2 & H)]];
    rewrite Hacc in *; unfold silence_test, max_test in *;
    change (silent_samples_needed cfg) with 24000 in *;
    change (max_samples cfg) with 1000 in *;
    cbn [silent_samples total_samples initial_state chunks app Z.add
         Z.of_nat] in *.
  - lia.
  - rewrite H. reflexivity.
  - exfalso. apply H2. cbn. lia.
Qed.

Lemma on_block_breaks_exactly_when_witness :
  let cfg := short_config in
  let s := mk_session new_Queue (mk_state [ones 1024] 0 1024) in
  capture_loop cfg initial_session [Callback (ones 1024); Iterate]
    = Exited BreakMax s /\
  ~ silence_test cfg (st s) /\ max_test cfg (st s).
Proof.
  intros cfg s. split; [exact capture_loop_one_loud_block |].
  exact (proj2 (on_block_breaks_exactly_when cfg) _ _ _
           capture_loop_one_loud_block).
Defined.

(** C6: silent_samples is reset to zero by every block whose level is at or
    above the threshold and grows by the block's length on every block whose
    level is below it; so after any block sequence collected by the loop it
    is the number of samples of the maximal trailing run of below-threshold
    blocks. *)
Theorem silent_samples_is_trailing_silent_run (cfg : config) :
  (forall (st0 : state) (c : chunk) (d : R),
     chunk_db c = Some d -> (threshold_db cfg <= d)%R ->
     silent_samples (state_of (on_block cfg st0 c)) = 0) /\
  (forall (st0 : state) (c : chunk) (d : R),
     chunk_db c = Some d -> (d < threshold_db cfg)%R ->
     silent_samples (state_of (on_block cfg st0 c)) = silent_samples st0 + len c) /\
  (forall (st0 : state) (c : chunk),
     is_silent cfg c = false ->
     silent_samples (state_of (on_block cfg st0 c)) = 0) /\
  (forall t : list action,
     let st' := st (session_of (capture_loop cfg initial_session t)) in
     silent_samples st' = total_len (trailing_silent_run cfg (chunks st')) /\
     total_samples st' = total_len (chunks st')).
Proof.
  repeat split.
  - intros st0 c d Hd Hle. rewrite state_of_on_block, accumulate_silent.
    unfold is_silent. rewrite Hd. simpl.
    destruct (Rlt_dec d (threshold_db cfg)); [lra | reflexivity].
  - intros st0 c d Hd Hlt. rewrite state_of_on_block, accumulate_silent.
    unfold is_silent. rewrite Hd. simpl.
    destruct (Rlt_dec d (threshold_db cfg)); [reflexivity | contradiction].
  - intros st0 c Hs. rewrite state_of_on_block, accumulate_silent, Hs.
    reflexivity.
  - apply (capture_loop_counters cfg t initial_session (counters_ok_initial cfg)).
  - apply (capture_loop_counters cfg t initial_session (counters_ok_initial cfg)).
Qed.

Lemma silent_samples_is_trailing_silent_run_witness :
  let st0 := mk_state [zeros 1024] 1024 1024 in
  silent_samples (state_of (on_block default_config st0 (ones 1024))) = 0 /\
  silent_samples (state_of (on_block default_config st0 (zeros 1024))) = 2048.
Proof.
  intros st0. split.
  - apply (proj1 (silent_samples_is_trailing_silent_run default_config)
             st0 (ones 1024) 0%R).
    + apply (chunk_db_ones 1023).
    + simpl. lra.
  - apply (proj1 (proj2 (silent_samples_is_trailing_silent_run default_config))
             st0 (zeros 1024) (-120)%R).
    + apply (chunk_db_zeros 1023).
    + simpl. lra.
Defined.

(** C2, as stated, fails: no capacity bounds the queue. Whatever bound is
    proposed, one more callback than that, with the consumer not yet
    scheduled, leaves more blocks than the bound in the queue. *)
Lemma audio_queue_has_no_capacity :
  ~ exists capacity : Z,
      forall (t : list action) (s : session),
        capture_loop default_config initial_session t = Looping s ->
        qsize (audio_queue s) <= capacity.
Proof.
  intros [capacity H].
  set (cs := repeat (zeros 1024) (S (Z.to_nat capacity))).
  specialize (H (map Callback cs) _
                (capture_loop_burst default_config cs initial_session eq_refl)).
  unfold qsize in H. simpl in H. unfold cs in H.
  rewrite repeat_length in H. lia.
Qed.

(** C2, amended: the channel between the callback and the consumer loop is
    an unbounded FIFO queue: an enqueue never blocks the producer and never
    drops a block, it appends it; the consumer takes the oldest block; so
    at any time the consumed blocks followed by the queued blocks are
    exactly the delivered blocks, in arrival order, and a burst of
    callbacks makes the queue as long as the burst. *)
Theorem audio_queue_unbounded_fifo (cfg : config) :
  maxsize (audio_queue initial_session) = 0 /\
  (forall (q : Queue) (item : chunk),
     maxsize q = 0 -> put q item = Some (mk_Queue 0 (items q ++ [item]))) /\
  (forall (m : Z) (c : chunk) (rest : list chunk),
     get (mk_Queue m (c :: rest)) = Some (c, mk_Queue m rest)) /\
  (forall (t : list action) (s : session),
     capture_loop cfg initial_session t = Looping s ->
     maxsize (audio_queue s) = 0 /\
     chunks (st s) ++ items (audio_queue s) = delivered t) /\
  (forall cs : list chunk,
     capture_loop cfg initial_session (map Callback cs) =
     Looping (mk_session (mk_Queue 0 cs) initial_state)) /\
  (forall (t : list action) (s : session),
     capture_loop cfg initial_session t <> Stalled s).
Proof.
  split; [reflexivity |].
  split; [exact put_unbounded |].
  split; [exact get_oldest |].
  split.
  - intros t s H.
    apply (capture_loop_fifo cfg t initial_session s eq_refl) in H.
    exact H.
  - split.
    + intros cs. apply (capture_loop_burst cfg cs initial_session eq_refl).
    + intros t s. apply (capture_loop_never_stalls cfg t initial_session s eq_refl).
Qed.

Lemma audio_queue_unbounded_fifo_witness :
  put (mk_Queue 0 [zeros 1024]) (ones 1024) =
    Some (mk_Queue 0 [zeros 1024; ones 1024]) /\
  chunks initial_state ++ [zeros 1024; ones 1024] =
    delivered [Callback (zeros 1024); Callback (ones 1024)].
Proof.
  split.
  - apply (proj1 (proj2 (audio_queue_unbounded_fifo default_config))
             (mk_Queue 0 [zeros 1024]) (ones 1024)).
    reflexivity.
  - apply (proj1 (proj2 (proj2 (proj2 (audio_queue_unbounded_fifo default_config))))
             [Callback (zeros 1024); Callback (ones 1024)]
             (mk_session (mk_Queue 0 [zeros 1024; ones 1024]) initial_state)).
    reflexivity.
Defined.

End EndpointingClaims2.

(** ** The capture operations *)

Section CaptureFacts.

Lemma ensure_mic_available_ok (info : device_info) :
  (1 <= max_input_channels info)%Z ->
  _ensure_mic_available (Return info) = Return tt.
Proof.
  intros H. unfold _ensure_mic_available. simpl.
  destruct (max_input_channels info <? 1)%Z eqn:E; [| reflexivity].
  apply Z.ltb_lt in E. lia.
Qed.

(** Whatever the device query does, the precheck raises [RecorderError] or
    nothing. *)
Lemma ensure_mic_available_raises_RecorderError (query : result device_info)
    (e : exn) :
  _ensure_mic_available query = Raise e -> is_RecorderError e = true.
Proof.
  unfold _ensure_mic_available.
  destruct query as [info | e' |]; simpl.
  - destruct (max_input_channels info <? 1)%Z; [| discriminate].
    intros [= <-]. reflexivity.
  - destruct e'; intros [= <-]; reflexivity.
  - discriminate.
Qed.

(** The three failure classes of the precheck. *)
Lemma ensure_mic_available_failures (nm m : string) :
  _ensure_mic_available (Return (mk_device_info nm 0)) =
    Raise (RecorderError ("Device '" ++ nm ++ "' has no input channels")) /\
  _ensure_mic_available (Raise (PortAudioError m)) =
    Raise (RecorderError ("Cannot access audio device: " ++ m)) /\
  _ensure_mic_available (Raise (OtherError m)) =
    Raise (RecorderError ("No suitable input device found: " ++ m)).
Proof. repeat split. Qed.

Lemma translate_PortAudioError_never_PortAudioError {A : Type}
    (body : result A) (m : string) :
  translate_PortAudioError body <> Raise (PortAudioError m).
Proof. destruct body as [a | [] |]; discriminate. Qed.

(** The result of [_normalize] has as many samples as its argument. *)
Lemma normalize_length (a out : ndarray) :
  _normalize a = Return out ->
  data a <> [] /\ List.length (data out) = List.length (data a).
Proof.
  unfold _normalize.
  destruct (data a) as [| x l] eqn:E; simpl; [discriminate |].
  intros [= <-]. split; [discriminate |].
  destruct (Rlt_dec 0 _); simpl; rewrite ?E, ?length_map; reflexivity.
Qed.

(** What a returning [record_until_silence] call went through. *)
Lemma record_until_silence_returns (cfg : config) (query : result device_info)
    (drv : driver) (out : ndarray) :
  record_until_silence cfg query drv = Return out ->
  _ensure_mic_available query = Return tt /\
  open_error drv = None /\ close_error drv = None /\
  exists why s,
    capture_loop cfg initial_session (trace drv) = Exited why s /\
    _normalize (mk_ndarray Float32 (List.concat (chunks (st s)))) = Return out.
Proof.
  unfold record_until_silence.
  destruct (_ensure_mic_available query) as [[] | e |]; simpl; try discriminate.
  destruct (open_error drv) as [m |]; simpl; [discriminate |].
  destruct (capture_loop cfg initial_session (trace drv)) as [s | why s | s]
    eqn:Hloop; simpl; [discriminate | | discriminate].
  destruct (close_error drv) as [m |]; simpl; [discriminate |].
  pose proof (capture_loop_exit_nonempty cfg _ _ _ _ Hloop) as Hne.
  destruct (chunks (st s)) as [| c cs] eqn:Hcs; [congruence |].
  intros H. repeat split; try reflexivity. exists why, s. split; [reflexivity |].
  rewrite Hcs. exact H.
Qed.

(** The empty-result branch is never taken: a returned recording has
    samples. *)
Lemma record_until_silence_never_returns_empty (cfg : config)
    (query : result device_info) (drv : driver) (out : ndarray) :
  record_until_silence cfg query drv = Return out -> data out <> [].
Proof.
  intros H. apply record_until_silence_returns in H.
  destruct H as (_ & _ & _ & why & s & _ & Hn).
  apply normalize_length in Hn. destruct Hn as [Hne Hlen]. simpl in *.
  intros E. rewrite E in Hlen. simpl in Hlen.
  destruct (List.concat (chunks (st s))); [congruence | discriminate].
Qed.

(** A stream error on entering the [with] block. *)
Lemma record_until_silence_open_failure (cfg : config)
    (query : result device_info) (drv : driver) (m : string) :
  _ensure_mic_available query = Return tt ->
  open_error drv = Some m ->
  record_until_silence cfg query drv =
  Raise (RecorderError ("Audio recording failed: " ++ m)).
Proof.
  intros He Ho. unfold record_until_silence. rewrite He, Ho. reflexivity.
Qed.

(** A stream error on leaving the [with] block, after blocks were collected. *)
Lemma record_until_silence_close_failure (cfg : config)
    (query : result device_info) (drv : driver) (m : string)
    (why : loop_exit) (s : session) :
  _ensure_mic_available query = Return tt ->
  open_error drv = None ->
  capture_loop cfg initial_session (trace drv) = Exited why s ->
  close_error drv = Some m ->
  record_until_silence cfg query drv =
  Raise (RecorderError ("Audio recording failed: " ++ m)).
Proof.
  intros He Ho Hl Hc. unfold record_until_silence.
  rewrite He, Ho, Hl, Hc. reflexivity.
Qed.

Lemma record_for_duration_stream_failure (d : Q)
    (query : result device_info) (sd_rec : Z -> result ndarray) (m : string) :
  _ensure_mic_available query = Return tt ->
  sd_rec (int (d * inject_Z SAMPLE_RATE)) = Raise (PortAudioError m) ->
  record_for_duration d query sd_rec =
  Raise (RecorderError ("Audio recording failed: " ++ m)).
Proof.
  intros He Hr. unfold record_for_duration. rewrite He. simpl.
  rewrite Hr. reflexivity.
Qed.

End CaptureFacts.

Section CaptureClaims.

(** C7, amended: in both capture operations a stream error that the driver
    raises into the call (when the stream is opened, when it is closed after
    the capture loop has ended, or from sd.rec/sd.wait) surfaces as one
    RecorderError of the stream-failure kind (message "Audio recording
    failed: ...") and no buffer is returned, also when blocks had been
    collected before the failure; a call that returns a buffer went through
    no stream error and returns the normalization of everything captured. *)
Theorem stream_failure_raises_and_discards :
  (forall cfg query drv m,
     _ensure_mic_available query = Return tt ->
     open_error drv = Some m ->
     record_until_silence cfg query drv =
     Raise (RecorderError ("Audio recording failed: " ++ m))) /\
  (forall cfg query drv m why s,
     _ensure_mic_available query = Return tt ->
     open_error drv = None ->
     capture_loop cfg initial_session (trace drv) = Exited why s ->
     close_error drv = Some m ->
     record_until_silence cfg query drv =
     Raise (RecorderError ("Audio recording failed: " ++ m))) /\
  (forall d query sd_rec m,
     _ensure_mic_available query = Return tt ->
     sd_rec (int (d * inject_Z SAMPLE_RATE)) = Raise (PortAudioError m) ->
     record_for_duration d query sd_rec =
     Raise (RecorderError ("Audio recording failed: " ++ m))) /\
  (forall cfg query drv out,
     record_until_silence cfg query drv = Return out ->
     open_error drv = None /\ close_error drv = None /\
     exists why s,
       capture_loop cfg initial_session (trace drv) = Exited why s /\
       _normalize (mk_ndarray Float32 (List.concat (chunks (st s)))) = Return out) /\
  (forall d query sd_rec out,
     record_for_duration d query sd_rec = Return out ->
     exists recording,
       sd_rec (int (d * inject_Z SAMPLE_RATE)) = Return recording /\
       _normalize recording = Return out).
Proof.
  split; [| split; [| split; [| split]]].
  - exact record_until_silence_open_failure.
  - exact record_until_silence_close_failure.
  - exact record_for_duration_stream_failure.
  - intros cfg query drv out H.
    apply record_until_silence_returns in H. tauto.
  - intros d query sd_rec out. unfold record_for_duration.
    destruct (_ensure_mic_available query) as [[] | e |]; simpl; try discriminate.
    destruct (sd_rec (int (d * inject_Z SAMPLE_RATE))) as [r | [] |];
      simpl; try discriminate.
    intros H. exists r. auto.
Qed.

End CaptureClaims.

Section CaptureClaims2.
Local Open Scope string_scope.

Lemma np_max_abs_ones (n : nat) : np_max (np_abs (ones (S n))) = Return 1%R.
Proof.
  unfold np_abs. change (ones (S n)) with (1%R :: ones n).
  cbn [map np_max]. f_equal. rewrite Rabs_R1.
  induction n as [| n IH]; [reflexivity |].
  change (ones (S n)) with (1%R :: ones n). cbn [map fold_left].
  rewrite Rabs_R1. unfold Rmax at 2.
  destruct (Rle_dec 1 1); exact IH.
Qed.

Lemma normalize_ones (n : nat) :
  _normalize (mk_ndarray Float32 (ones (S n))) =
  Return (mk_ndarray Float32 (ones (S n))).
Proof. apply (normalize_unit_peak (mk_ndarray Float32 _)), np_max_abs_ones. Qed.

(** One full-scale block under the default bounds, then nothing: the loop
    has consumed the block and keeps polling the empty queue. *)
Lemma capture_loop_loud_block_then_polling (n : nat) :
  capture_loop default_config initial_session
    ([Callback (ones 1024); Iterate] ++ repeat Iterate n)
  = Looping (mk_session new_Queue (mk_state [ones 1024] 0 1024)).
Proof.
  set (cfg := default_config).
  assert (Hthr : (threshold_db cfg <= 0)%R) by (simpl; lra).
  pose proof (accumulate_ones cfg initial_state 1023 Hthr) as Hacc.
  cbn [app capture_loop initial_session put full new_Queue audio_queue maxsize
       items Z.ltb Z.compare andb get st].
  rewrite (on_block_continue cfg initial_state (ones 1024)).
  - rewrite Hacc. apply capture_loop_polling. reflexivity.
  - rewrite Hacc. unfold silence_test.
    change (silent_samples_needed cfg) with 24000%Z. cbn. lia.
  - rewrite Hacc. unfold max_test.
    change (max_samples cfg) with 480000%Z. cbn. lia.
Qed.

(** C7, as stated, fails: a driver-level stream error during a capture does
    not always make the call raise. A stream that delivers one block and
    then fails (it delivers nothing more; its error is pending for the
    moment the stream is closed) leaves [record_until_silence] in its loop:
    after any number of further iterations the call has neither raised nor
    returned. *)
Lemma failed_stream_keeps_waiting :
  let mic := Return (mk_device_info "Mic" 1) in
  let failed := fun n : nat =>
    mk_driver None ([Callback (ones 1024); Iterate] ++ repeat Iterate n)
              (Some "Unanticipated host error") in
  (forall n, record_until_silence default_config mic (failed n) = Waiting) /\
  ~ (forall n, exists e,
       record_until_silence default_config mic (failed n) = Raise e).
Proof.
  intros mic failed.
  assert (H : forall n,
             record_until_silence default_config mic (failed n) = Waiting).
  { intros n. unfold record_until_silence, mic, failed.
    rewrite ensure_mic_available_ok by (simpl; lia).
    cbn [bind open_error trace].
    rewrite capture_loop_loud_block_then_polling. reflexivity. }
  split; [exact H |].
  intros Hall. destruct (Hall O) as [e He]. rewrite H in He. discriminate.
Qed.

Lemma stream_failure_raises_and_discards_witness :
  let mic := Return (mk_device_info "Mic" 1) in
  let cfg := short_config in
  let loud := [Callback (ones 1024); Iterate] in
  record_until_silence cfg mic (mk_driver (Some "Device unavailable") loud None)
    = Raise (RecorderError "Audio recording failed: Device unavailable") /\
  record_until_silence cfg mic (mk_driver None loud (Some "Unanticipated host error"))
    = Raise (RecorderError "Audio recording failed: Unanticipated host error") /\
  record_for_duration (2 # 1) mic (fun _ => Raise (PortAudioError "test error"))
    = Raise (RecorderError "Audio recording failed: test error") /\
  (exists why s,
     capture_loop cfg initial_session loud = Exited why s /\
     _normalize (mk_ndarray Float32 (List.concat (chunks (st s))))
       = Return (mk_ndarray Float32 (ones 1024))) /\
  (exists recording,
     Return (mk_ndarray Float32 (ones 1)) = Return recording /\
     _normalize recording = Return (mk_ndarray Float32 (ones 1))).
Proof.
  intros mic cfg loud.
  destruct stream_failure_raises_and_discards as (T1 & T2 & T3 & T4 & T5).
  assert (Hmic : _ensure_mic_available mic = Return tt) by reflexivity.
  split; [| split; [| split; [| split]]].
  - apply (T1 cfg mic (mk_driver (Some "Device unavailable") loud None)
             "Device unavailable"%string Hmic eq_refl).
  - apply (T2 cfg mic (mk_driver None loud (Some "Unanticipated host error"))
             "Unanticipated host error"%string BreakMax _ Hmic eq_refl
             capture_loop_one_loud_block eq_refl).
  - apply (T3 (2 # 1) mic (fun _ => Raise (PortAudioError "test error"))
             "test error"%string Hmic eq_refl).
  - assert (H : record_until_silence cfg mic (mk_driver None loud None)
                = Return (mk_ndarray Float32 (ones 1024))).
    { unfold record_until_silence. rewrite Hmic.
      cbn [bind open_error close_error trace].
      unfold loud, cfg. rewrite capture_loop_one_loud_block.
      cbn [bind translate_PortAudioError st chunks List.concat].
      rewrite app_nil_r. apply (normalize_ones 1023). }
    destruct (T4 cfg mic (mk_driver None loud None) _ H) as (_ & _ & Hex).
    exact Hex.
  - apply (T5 (1 # 16000) mic
             (fun frames => Return (mk_ndarray Float32 (ones (Z.to_nat frames))))).
    unfold record_for_duration. rewrite Hmic.
    cbn [bind translate_PortAudioError].
    apply (normalize_ones 0).
Defined.

(** C8 on the code: in a session where the stream opens and no block is ever
    delivered, every loop iteration times out on the queue and the call is
    still waiting after any number of iterations; it does not return the
    empty float32 result. *)
Theorem no_block_session_keeps_waiting (n : nat) :
  record_until_silence default_config (Return (mk_device_info "Mic" 1))
    (mk_driver None (repeat Iterate n) None) = Waiting.
Proof.
  unfold record_until_silence.
  rewrite ensure_mic_available_ok by (simpl; lia).
  cbn [bind open_error trace].
  rewrite capture_loop_polling by reflexivity. reflexivity.
Qed.

Lemma normalize_never_PortAudioError (a : ndarray) (m : string) :
  _normalize a <> Raise (PortAudioError m).
Proof.
  unfold _normalize. destruct (data a); simpl; discriminate.
Qed.

Lemma record_until_silence_never_PortAudioError (cfg : config)
    (query : result device_info) (drv : driver) (m : string) :
  record_until_silence cfg query drv <> Raise (PortAudioError m).
Proof.
  unfold record_until_silence.
  destruct (_ensure_mic_available query) as [[] | e |] eqn:He; simpl.
  - destruct (translate_PortAudioError _) as [s | e |] eqn:Hb; simpl.
    + destruct (chunks s); [discriminate |].
      apply normalize_never_PortAudioError.
    + intros [= ->]. revert Hb.
      apply translate_PortAudioError_never_PortAudioError.
    + discriminate.
  - intros [= ->]. apply ensure_mic_available_raises_RecorderError in He.
    discriminate.
  - discriminate.
Qed.

Lemma record_for_duration_never_PortAudioError (d : Q)
    (query : result device_info) (sd_rec : Z -> result ndarray) (m : string) :
  record_for_duration d query sd_rec <> Raise (PortAudioError m).
Proof.
  unfold record_for_duration.
  destruct (_ensure_mic_available query) as [[] | e |] eqn:He; simpl.
  - destruct (translate_PortAudioError _) as [r | e |] eqn:Hb; simpl.
    + apply normalize_never_PortAudioError.
    + intros [= ->]. revert Hb.
      apply translate_PortAudioError_never_PortAudioError.
    + discriminate.
  - intros [= ->]. apply ensure_mic_available_raises_RecorderError in He.
    discriminate.
  - discriminate.
Qed.

(** Only [sd.PortAudioError] is translated: any other exception of the
    driver library leaves [record_for_duration] as it is. *)
Lemma record_for_duration_passes_other_exceptions (d : Q)
    (query : result device_info) (sd_rec : Z -> result ndarray) (e : exn) :
  _ensure_mic_available query = Return tt ->
  sd_rec (int (d * inject_Z SAMPLE_RATE)) = Raise e ->
  (forall m, e <> PortAudioError m) ->
  record_for_duration d query sd_rec = Raise e.
Proof.
  intros He Hr Hne. unfold record_for_duration. rewrite He. simpl. rewrite Hr.
  destruct e; try reflexivity. exfalso. apply (Hne msg). reflexivity.
Qed.

(** C10 on the code: not every error raised by a public capture operation
    is a RecorderError. A zero-second fixed-duration capture on a working
    device records zero frames, and the [ValueError] of the peak reduction
    leaves [record_for_duration] untranslated: the operation lacks the
    empty-recording guard that [record_until_silence] has before it
    normalizes. *)
Lemma record_for_duration_zero_raises_ValueError :
  let e := ValueError
    "zero-size array to reduction operation maximum which has no identity" in
  record_for_duration 0 (Return (mk_device_info "Mic" 1))
    (fun frames => Return (mk_ndarray Float32 (zeros (Z.to_nat frames))))
    = Raise e /\
  is_RecorderError e = false.
Proof. split; reflexivity. Qed.

(** X29: every device or driver error raised by the public capture
    operations (record_until_silence, record_for_duration and the
    device-availability precheck) is of the single RecorderError type: a
    zero-channel device, an unreachable audio subsystem, a failing device
    query and a stream error that the driver raises into the call are not
    distinguishable from one another by error type, and no PortAudioError
    leaves the operations. *)
Theorem device_and_stream_failures_are_RecorderError :
  (forall query e,
     _ensure_mic_available query = Raise e -> is_RecorderError e = true) /\
  (forall cfg query drv e,
     _ensure_mic_available query = Raise e ->
     record_until_silence cfg query drv = Raise e /\ is_RecorderError e = true) /\
  (forall d query sd_rec e,
     _ensure_mic_available query = Raise e ->
     record_for_duration d query sd_rec = Raise e /\ is_RecorderError e = true) /\
  (forall cfg query drv m,
     _ensure_mic_available query = Return tt ->
     open_error drv = Some m \/
     (open_error drv = None /\ close_error drv = Some m /\
      exists why s, capture_loop cfg initial_session (trace drv) = Exited why s) ->
     exists e, record_until_silence cfg query drv = Raise e /\
               is_RecorderError e = true) /\
  (forall d query sd_rec m,
     _ensure_mic_available query = Return tt ->
     sd_rec (int (d * inject_Z SAMPLE_RATE)) = Raise (PortAudioError m) ->
     exists e, record_for_duration d query sd_rec = Raise e /\
               is_RecorderError e = true) /\
  (forall cfg query drv m,
     record_until_silence cfg query drv <> Raise (PortAudioError m)) /\
  (forall d query sd_rec m,
     record_for_duration d query sd_rec <> Raise (PortAudioError m)).
Proof.
  split; [exact ensure_mic_available_raises_RecorderError |].
  split; [| split; [| split; [| split; [| split]]]].
  - intros cfg query drv e H. split.
    + unfold record_until_silence. rewrite H. reflexivity.
    + exact (ensure_mic_available_raises_RecorderError _ _ H).
  - intros d query sd_rec e H. split.
    + unfold record_for_duration. rewrite H. reflexivity.
    + exact (ensure_mic_available_raises_RecorderError _ _ H).
  - intros cfg query drv m He [Ho | (Ho & Hc & why & s & Hl)]; eexists; split.
    + apply (record_until_silence_open_failure cfg query drv m He Ho).
    + reflexivity.
    + apply (record_until_silence_close_failure cfg query drv m why s He Ho Hl Hc).
    + reflexivity.
  - intros d query sd_rec m He Hr. eexists; split.
    + apply (record_for_duration_stream_failure d query sd_rec m He Hr).
    + reflexivity.
  - exact record_until_silence_never_PortAudioError.
  - exact record_for_duration_never_PortAudioError.
Qed.

Lemma device_and_stream_failures_are_RecorderError_witness :
  let mic := Return (mk_device_info "Mic" 1) in
  is_RecorderError (RecorderError "Device 'Speakers' has no input channels") = true /\
  is_RecorderError (RecorderError "Cannot access audio device: PortAudio not initialized") = true /\
  (record_until_silence default_config (Raise (OtherError "No input device matching 7"))
     (mk_driver None [] None)
     = Raise (RecorderError "No suitable input device found: No input device matching 7")
   /\ is_RecorderError
        (RecorderError "No suitable input device found: No input device matching 7") = true) /\
  (exists e, record_until_silence default_config mic
               (mk_driver (Some "Device unavailable") [] None) = Raise e /\
             is_RecorderError e = true) /\
  (exists e, record_for_duration (2 # 1) mic
               (fun _ => Raise (PortAudioError "test error")) = Raise e /\
             is_RecorderError e = true).
Proof.
  intros mic.
  destruct device_and_stream_failures_are_RecorderError
    as (T1 & T2 & T3 & T4 & T5 & _ & _).
  split; [| split; [| split; [| split]]].
  - apply (T1 (Return (mk_device_info "Speakers" 0))). reflexivity.
  - apply (T1 (Raise (PortAudioError "PortAudio not initialized"))). reflexivity.
  - apply (T2 default_config (Raise (OtherError "No input device matching 7"))).
    reflexivity.
  - apply (T4 default_config mic (mk_driver (Some "Device unavailable") [] None)
             "Device unavailable").
    + reflexivity.
    + left; reflexivity.
  - apply (T5 (2 # 1) mic (fun _ => Raise (PortAudioError "test error")) "test error").
    + reflexivity.
    + reflexivity.
Defined.

End CaptureClaims2.

(** * Further properties of the recorder *)

(** ** Device enumeration *)

Section DeviceEnumeration.
Local Open Scope Z_scope.

Lemma get_input_devices_loop (devices : list DeviceDict.t) (start : Z)
    (acc : list InputDevice.t) :
  fold_left
    (fun (result : list InputDevice.t) (p : Z * DeviceDict.t) =>
       let (i, dev) := p in
       if 0 <? DeviceDict.max_input_channels dev
       then result ++ [InputDevice.mk i (DeviceDict.name dev)
                         (DeviceDict.max_input_channels dev)
                         (DeviceDict.default_samplerate dev)]
       else result)
    (enumerate start devices) acc
  = acc ++ input_entries start devices.
Proof.
  revert start acc. induction devices as [| dev rest IH]; intros start acc; simpl.
  - rewrite app_nil_r. reflexivity.
  - rewrite IH. destruct (0 <? DeviceDict.max_input_channels dev).
    + rewrite <- app_assoc. reflexivity.
    + reflexivity.
Qed.

Lemma get_input_devices_entries (devices : list DeviceDict.t) :
  get_input_devices (Return devices) = Return (input_entries 0 devices).
Proof.
  unfold get_input_devices. simpl. rewrite get_input_devices_loop. reflexivity.
Qed.

Lemma input_entries_in (devices : list DeviceDict.t) (start : Z)
    (e : InputDevice.t) :
  In e (input_entries start devices) <->
  exists dev,
    start <= InputDevice.index e /\
    nth_error devices (Z.to_nat (InputDevice.index e - start)) = Some dev /\
    0 < DeviceDict.max_input_channels dev /\
    e = InputDevice.mk (InputDevice.index e) (DeviceDict.name dev)
          (DeviceDict.max_input_channels dev)
          (DeviceDict.default_samplerate dev).
Proof.
  revert start. induction devices as [| d rest IH]; intros start; simpl.
  - split; [contradiction |].
    intros (dev & _ & H & _). destruct (Z.to_nat _); discriminate.
  - assert (Hrest :
      In e (input_entries (start + 1) rest) <->
      exists dev,
        start < InputDevice.index e /\
        nth_error (d :: rest) (Z.to_nat (InputDevice.index e - start)) = Some dev /\
        0 < DeviceDict.max_input_channels dev /\
        e = InputDevice.mk (InputDevice.index e) (DeviceDict.name dev)
              (DeviceDict.max_input_channels dev)
              (DeviceDict.default_samplerate dev)).
    { rewrite IH. split; intros (dev & Hle & Hn & Hc & He); exists dev;
        (split; [lia |]); (split; [| split; assumption]).
      - replace (Z.to_nat (InputDevice.index e - start))
          with (S (Z.to_nat (InputDevice.index e - (start + 1)))) by lia.
        exact Hn.
      - replace (Z.to_nat (InputDevice.index e - start))
          with (S (Z.to_nat (InputDevice.index e - (start + 1)))) in Hn by lia.
        exact Hn. }
    destruct (0 <? DeviceDict.max_input_channels d) eqn:Hd.
    + apply Z.ltb_lt in Hd. simpl. rewrite Hrest. split.
      * intros [<- | (dev & Hlt & Hn & Hc & He)].
        -- exists d. simpl. rewrite Z.sub_diag. simpl.
           repeat split; try lia; reflexivity.
        -- exists dev. repeat split; try lia; assumption.
      * intros (dev & Hle & Hn & Hc & He).
        destruct (Z.eq_dec (InputDevice.index e) start) as [Heq | Hne].
        -- left. rewrite Heq, Z.sub_diag in Hn. simpl in Hn.
           injection Hn as <-. rewrite He, Heq. reflexivity.
        -- right. exists dev. repeat split; try lia; assumption.
    + apply Z.ltb_ge in Hd. rewrite Hrest. split.
      * intros (dev & Hlt & Hn & Hc & He). exists dev.
        repeat split; try lia; assumption.
      * intros (dev & Hle & Hn & Hc & He).
        destruct (Z.eq_dec (InputDevice.index e) start) as [Heq | Hne].
        -- rewrite Heq, Z.sub_diag in Hn. simpl in Hn.
           injection Hn as <-. lia.
        -- exists dev. repeat split; try lia; assumption.
Qed.

Lemma input_entries_index_bound (devices : list DeviceDict.t) (start : Z) :
  Forall (fun e => start <= InputDevice.index e) (input_entries start devices).
Proof.
  apply Forall_forall. intros e He. apply input_entries_in in He.
  destruct He as (dev & Hle & _). exact Hle.
Qed.

Lemma input_entries_sorted (devices : list DeviceDict.t) (start : Z) :
  StronglySorted Z.lt (map InputDevice.index (input_entries start devices)).
Proof.
  revert start. induction devices as [| d rest IH]; intros start; simpl.
  - constructor.
  - destruct (0 <? DeviceDict.max_input_channels d); [| apply IH].
    simpl. constructor; [apply IH |].
    apply Forall_map.
    eapply Forall_impl; [| apply (input_entries_index_bound rest (start + 1))].
    simpl. intros e He. lia.
Qed.

(** X1: [get_input_devices] lists exactly the devices that report at least
    one input channel, each under its position in the platform's
    enumeration and with the name, channel count and sample rate found at
    that position. *)
Theorem get_input_devices_lists_exactly_inputs
    (devices : list DeviceDict.t) (e : InputDevice.t) :
  exists listed,
    get_input_devices (Return devices) = Return listed /\
    (In e listed <->
     exists dev,
       0 <= InputDevice.index e /\
       nth_error devices (Z.to_nat (InputDevice.index e)) = Some dev /\
       0 < DeviceDict.max_input_channels dev /\
       e = InputDevice.mk (InputDevice.index e) (DeviceDict.name dev)
             (DeviceDict.max_input_channels dev)
             (DeviceDict.default_samplerate dev)).
Proof.
  exists (input_entries 0 devices). split; [apply get_input_devices_entries |].
  rewrite input_entries_in.
  split; intros (dev & H); exists dev; rewrite Z.sub_0_r in *; exact H.
Qed.

(** X2: the list [get_input_devices] returns is in enumeration order: its
    indices are strictly increasing, so no device is listed twice and the
    list is never longer than the enumeration. *)
Theorem get_input_devices_keeps_order (devices : list DeviceDict.t) :
  exists listed,
    get_input_devices (Return devices) = Return listed /\
    StronglySorted Z.lt (map InputDevice.index listed) /\
    NoDup (map InputDevice.index listed) /\
    (List.length listed <= List.length devices)%nat.
Proof.
  exists (input_entries 0 devices). split; [apply get_input_devices_entries |].
  assert (Hs := input_entries_sorted devices 0).
  split; [exact Hs |]. split.
  - clear - Hs. induction Hs as [| x l Hl IH Hx]; constructor; [| exact IH].
    intros Hin. rewrite Forall_forall in Hx. specialize (Hx x Hin). lia.
  - clear Hs. generalize 0. induction devices as [| d rest IH]; intros start; simpl.
    + lia.
    + destruct (0 <? DeviceDict.max_input_channels d); simpl;
        specialize (IH (start + 1)); lia.
Qed.

(** X3: a device is listed by [get_input_devices] exactly when the
    microphone precheck accepts what the platform reports for it. *)
Theorem listed_devices_pass_the_precheck
    (devices : list DeviceDict.t) (i : nat) (dev : DeviceDict.t) :
  nth_error devices i = Some dev ->
  exists listed,
    get_input_devices (Return devices) = Return listed /\
    (In (Z.of_nat i) (map InputDevice.index listed) <->
     _ensure_mic_available (Return (info_of dev)) = Return tt).
Proof.
  intros Hn. exists (input_entries 0 devices).
  split; [apply get_input_devices_entries |].
  rewrite in_map_iff. split.
  - intros (e & Hi & He). apply input_entries_in in He.
    destruct He as (dev' & _ & Hn' & Hc & _).
    rewrite Z.sub_0_r, Hi, Nat2Z.id, Hn in Hn'. injection Hn' as <-.
    apply ensure_mic_available_ok. simpl. lia.
  - intros Hok.
    assert (Hc : 0 < DeviceDict.max_input_channels dev).
    { unfold _ensure_mic_available in Hok. simpl in Hok.
      destruct (DeviceDict.max_input_channels dev <? 1) eqn:E; [discriminate |].
      apply Z.ltb_ge in E. lia. }
    exists (InputDevice.mk (Z.of_nat i) (DeviceDict.name dev)
              (DeviceDict.max_input_channels dev)
              (DeviceDict.default_samplerate dev)).
    split; [reflexivity |]. apply input_entries_in. exists dev. simpl.
    rewrite Z.sub_0_r, Nat2Z.id. repeat split; try lia; assumption.
Qed.

Lemma listed_devices_pass_the_precheck_witness :
  let mic := DeviceDict.mk "Mic" 2 (44100 # 1) in
  let speakers := DeviceDict.mk "Speakers" 0 (44100 # 1) in
  let usb := DeviceDict.mk "USB Mic" 1 (16000 # 1) in
  exists listed,
    get_input_devices (Return [mic; speakers; usb]) = Return listed /\
    (In 2 (map InputDevice.index listed) <->
     _ensure_mic_available (Return (info_of usb)) = Return tt).
Proof.
  intros mic speakers usb.
  apply (listed_devices_pass_the_precheck [mic; speakers; usb] 2 usb).
  reflexivity.
Defined.

End DeviceEnumeration.

(** ** Normalizer: range *)

Section NormalizerMore.
Local Open Scope R_scope.

Lemma peak_bounds_samples (l : list R) (p x : R) :
  np_max (np_abs l) = Return p -> In x l -> Rabs x <= p.
Proof.
  intros Hp Hin. apply (np_max_upper _ _ _ Hp). unfold np_abs.
  apply in_map, Hin.
Qed.

Lemma zero_peak_all_zero (l : list R) (p : R) :
  np_max (np_abs l) = Return p -> ~ 0 < p -> Forall (fun x => x = 0) l.
Proof.
  intros Hp Hnot. apply Forall_forall. intros x Hin.
  pose proof (peak_bounds_samples l p x Hp Hin) as Hx.
  pose proof (Rabs_pos x) as H0.
  destruct (Req_dec x 0) as [E | E]; [exact E |].
  pose proof (Rabs_pos_lt x E). lra.
Qed.

Lemma normalize_output_range_facts (a out : ndarray) :
  _normalize a = Return out ->
  Forall (fun x => -1 <= x <= 1) (data out) /\ dtype out = Float32.
Proof.
  intros H. split.
  - revert H. unfold _normalize.
    destruct (np_max (np_abs (data a))) as [p | e |] eqn:Hp; simpl;
      try discriminate.
    destruct (Rlt_dec 0 p) as [Hpos | Hnot]; intros [= <-]; simpl.
    + apply Forall_forall. intros y Hy. apply in_map_iff in Hy.
      destruct Hy as (x & <- & Hin).
      pose proof (peak_bounds_samples _ _ _ Hp Hin) as Hx.
      assert (Hy : Rabs (x / p) <= 1).
      { rewrite Rabs_div_pos by exact Hpos.
        apply (Rmult_le_reg_r p); [exact Hpos |].
        unfold Rdiv. rewrite Rmult_assoc, Rinv_l by lra. lra. }
      unfold Rabs in Hy. destruct (Rcase_abs (x / p)); lra.
    + eapply Forall_impl; [| apply (zero_peak_all_zero _ _ Hp Hnot)].
      simpl. intros x ->. lra.
  - revert H. unfold _normalize.
    destruct (np_max (np_abs (data a))); simpl; try discriminate.
    intros [= <-]. reflexivity.
Qed.

(** X9: whatever [_normalize] returns is a float32 array of the length of
    its argument whose samples all lie between -1 and 1. *)
Theorem normalize_output_range (a out : ndarray) :
  _normalize a = Return out ->
  Forall (fun x => -1 <= x <= 1) (data out) /\
  dtype out = Float32 /\
  List.length (data out) = List.length (data a).
Proof.
  intros H. destruct (normalize_output_range_facts a out H) as [Hr Hd].
  split; [exact Hr |]. split; [exact Hd |].
  apply (normalize_length a out H).
Qed.

Lemma normalize_output_range_witness :
  exists out,
    _normalize (mk_ndarray Float32 [0; 1 / 2; - (1 / 4)]) = Return out /\
    Forall (fun x => -1 <= x <= 1) (data out) /\
    dtype out = Float32 /\ List.length (data out) = 3%nat.
Proof.
  destruct (normalize_returns (mk_ndarray Float32 [0; 1 / 2; - (1 / 4)])
              ltac:(discriminate)) as [out Hout].
  exists out. split; [exact Hout |].
  exact (normalize_output_range _ out Hout).
Defined.

End NormalizerMore.

(** ** The endpointing loop as a function of the block sequence *)

Section BlockSequence.
Local Open Scope Z_scope.
Variable cfg : config.

Lemma run_blocks_app_break (cs rest : list chunk) (st0 st' : state)
    (why : loop_exit) :
  run_blocks cfg st0 cs = Break why st' ->
  run_blocks cfg st0 (cs ++ rest) = Break why st'.
Proof.
  revert st0. induction cs as [| c cs IH]; intros st0; simpl; [discriminate |].
  destruct (on_block cfg st0 c); [apply IH | auto].
Qed.

Lemma run_blocks_app_continue (cs rest : list chunk) (st0 st' : state) :
  run_blocks cfg st0 cs = Continue st' ->
  run_blocks cfg st0 (cs ++ rest) = run_blocks cfg st' rest.
Proof.
  revert st0. induction cs as [| c cs IH]; intros st0; simpl.
  - intros [= <-]. reflexivity.
  - destruct (on_block cfg st0 c); [apply IH | discriminate].
Qed.

(** The loop consumes the queued and delivered blocks in order. *)
Lemma capture_loop_exit_run_blocks (t : list action) (s s' : session)
    (why : loop_exit) :
  maxsize (audio_queue s) = 0 ->
  capture_loop cfg s t = Exited why s' ->
  run_blocks cfg (st s) (items (audio_queue s) ++ delivered t)
  = Break why (st s').
Proof.
  revert s. induction t as [| a t IH]; intros s Hm; simpl; [discriminate |].
  destruct a as [indata |].
  - rewrite (put_unbounded _ indata Hm). intros H.
    apply IH in H; [| reflexivity]. simpl in H.
    rewrite <- app_assoc in H. exact H.
  - destruct (get (audio_queue s)) as [[c q'] |] eqn:Hg.
    + apply get_keeps_maxsize in Hg. destruct Hg as [Hm' Hi]. rewrite Hi.
      simpl. destruct (on_block cfg (st s) c) as [st1 | why1 st1].
      * intros H. apply IH in H; [exact H | simpl; congruence].
      * intros [= <- <-]. reflexivity.
    + intros H. apply IH in H; [| exact Hm].
      unfold get in Hg. destruct (items (audio_queue s)); [exact H | discriminate].
Qed.

Lemma capture_loop_exit_stable (t t2 : list action) (s s' : session)
    (why : loop_exit) :
  capture_loop cfg s t = Exited why s' ->
  capture_loop cfg s (t ++ t2) = Exited why s'.
Proof.
  revert s. induction t as [| a t IH]; intros s; simpl; [discriminate |].
  destruct a as [indata |].
  - destruct (put (audio_queue s) indata); [apply IH | discriminate].
  - destruct (get (audio_queue s)) as [[c q'] |]; [| apply IH].
    destruct (on_block cfg (st s) c); [apply IH | auto].
Qed.

Lemma counters_ok_stop_condition (st0 : state) :
  counters_ok cfg st0 ->
  (stop_condition cfg (chunks st0) <-> silence_test cfg st0 \/ max_test cfg st0).
Proof.
  intros [Hs Ht]. unfold stop_condition, silence_test, max_test.
  rewrite Hs, Ht. reflexivity.
Qed.

Lemma on_block_counters_ok (st0 : state) (c : chunk) :
  counters_ok cfg st0 -> counters_ok cfg (state_of (on_block cfg st0 c)).
Proof.
  intros H. rewrite state_of_on_block. apply counters_ok_accumulate, H.
Qed.

(** Where a run over a block sequence breaks. *)
Lemma run_blocks_break (cs : list chunk) (st0 st' : state) (why : loop_exit) :
  counters_ok cfg st0 ->
  run_blocks cfg st0 cs = Break why st' ->
  exists consumed rest,
    cs = consumed ++ rest /\ consumed <> [] /\
    chunks st' = chunks st0 ++ consumed /\
    counters_ok cfg st' /\
    match why with
    | BreakSilence => silence_test cfg st'
    | BreakMax => ~ silence_test cfg st' /\ max_test cfg st'
    end /\
    (forall p q, consumed = p ++ q -> p <> [] -> q <> [] ->
       ~ stop_condition cfg (chunks st0 ++ p)).
Proof.
  revert st0. induction cs as [| c cs IH]; intros st0 Hok; simpl; [discriminate |].
  pose proof (on_block_counters_ok st0 c Hok) as Hok1.
  pose proof (state_of_on_block cfg st0 c) as Hst.
  destruct (on_block_cases cfg st0 c)
    as [[H1 H] | [(H1 & H2 & H) | (H1 & H2 & H)]]; rewrite H in *;
    simpl in Hok1, Hst.
  - intros [= <- <-]. exists [c], cs.
    split; [reflexivity |]. split; [discriminate |].
    split; [reflexivity |]. split; [exact Hok1 |]. split; [assumption |].
    intros p q Hpq Hp Hq. exfalso.
    destruct p as [| x [| y p]]; [congruence | |];
      simpl in Hpq; injection Hpq as _ Hpq;
      [ congruence | discriminate ].
  - intros [= <- <-]. exists [c], cs.
    split; [reflexivity |]. split; [discriminate |].
    split; [reflexivity |]. split; [exact Hok1 |]. split; [split; assumption |].
    intros p q Hpq Hp Hq. exfalso.
    destruct p as [| x [| y p]]; [congruence | |];
      simpl in Hpq; injection Hpq as _ Hpq;
      [ congruence | discriminate ].
  - intros Hrun. destruct (IH _ Hok1 Hrun)
      as (consumed & rest & Hcs & Hne & Hch & Hok' & Hwhy & Hmin).
    exists (c :: consumed), rest.
    split; [simpl; rewrite Hcs; reflexivity |]. split; [discriminate |].
    split; [rewrite Hch; simpl; rewrite <- app_assoc; reflexivity |].
    split; [exact Hok' |]. split; [exact Hwhy |].
    intros p q Hpq Hp Hq.
    destruct p as [| x p]; [congruence |].
    simpl in Hpq. injection Hpq as <- Hpq.
    destruct p as [| y p].
    + intros Hstop.
      apply (counters_ok_stop_condition _ Hok1) in Hstop.
      tauto.
    + replace (chunks st0 ++ c :: y :: p)
        with (chunks (accumulate cfg st0 c) ++ y :: p)
        by (simpl; rewrite <- app_assoc; reflexivity).
      apply (Hmin (y :: p) q Hpq); [discriminate | exact Hq].
Qed.

(** A run that does not break has consumed everything, and no prefix along
    the way met the stopping condition. *)
Lemma run_blocks_continue (cs : list chunk) (st0 st' : state) :
  counters_ok cfg st0 ->
  run_blocks cfg st0 cs = Continue st' ->
  chunks st' = chunks st0 ++ cs /\
  counters_ok cfg st' /\
  (forall p q, cs = p ++ q -> p <> [] ->
     ~ stop_condition cfg (chunks st0 ++ p)).
Proof.
  revert st0. induction cs as [| c cs IH]; intros st0 Hok; simpl.
  - intros [= <-]. rewrite app_nil_r.
    split; [reflexivity |]. split; [exact Hok |].
    intros p q Hpq Hp. destruct p; [congruence | discriminate].
  - pose proof (on_block_counters_ok st0 c Hok) as Hok1.
    destruct (on_block_cases cfg st0 c)
      as [[H1 H] | [(H1 & H2 & H) | (H1 & H2 & H)]]; rewrite H in *;
      simpl in Hok1; try discriminate.
    intros Hrun. destruct (IH _ Hok1 Hrun) as (Hch & Hok' & Hmin).
    split; [rewrite Hch; simpl; rewrite <- app_assoc; reflexivity |].
    split; [exact Hok' |].
    intros p q Hpq Hp.
    destruct p as [| x p]; [congruence |].
    simpl in Hpq. injection Hpq as <- Hpq.
    destruct p as [| y p].
    + intros Hstop.
      apply (counters_ok_stop_condition _ Hok1) in Hstop. tauto.
    + replace (chunks st0 ++ c :: y :: p)
        with (chunks (accumulate cfg st0 c) ++ y :: p)
        by (simpl; rewrite <- app_assoc; reflexivity).
      apply (Hmin (y :: p) q Hpq). discriminate.
Qed.

End BlockSequence.

Section BlockSequenceTheorems.
Local Open Scope Z_scope.

Lemma len_nonneg (c : chunk) : 0 <= len c.
Proof. unfold len. lia. Qed.

Lemma total_len_nonneg (cs : list chunk) : 0 <= total_len cs.
Proof.
  induction cs as [| c cs IH]; simpl; [lia |].
  pose proof (len_nonneg c). lia.
Qed.

Lemma total_len_concat (cs : list chunk) :
  Z.of_nat (List.length (List.concat cs)) = total_len cs.
Proof.
  induction cs as [| c cs IH]; simpl; [reflexivity |].
  rewrite length_app, Nat2Z.inj_add, IH. reflexivity.
Qed.

Lemma run_blocks_from_capture_loop (cfg : config) (t : list action)
    (why : loop_exit) (s : session) :
  capture_loop cfg initial_session t = Exited why s ->
  run_blocks cfg initial_state (delivered t) = Break why (st s).
Proof.
  intros H.
  exact (capture_loop_exit_run_blocks cfg t initial_session s why eq_refl H).
Qed.

Lemma run_blocks_one_loud_block :
  run_blocks short_config initial_state [ones 1024] =
  Break BreakMax (mk_state [ones 1024] 0 1024).
Proof.
  exact (run_blocks_from_capture_loop short_config _ _ _
           capture_loop_one_loud_block).
Qed.

Lemma record_until_silence_one_loud_block :
  record_until_silence short_config (Return (mk_device_info "Mic" 1))
    (mk_driver None [Callback (ones 1024); Iterate] None)
  = Return (mk_ndarray Float32 (ones 1024)).
Proof.
  unfold record_until_silence.
  rewrite ensure_mic_available_ok by (simpl; lia).
  cbn [bind open_error close_error trace].
  rewrite capture_loop_one_loud_block.
  cbn [bind translate_PortAudioError st chunks List.concat].
  rewrite app_nil_r. apply (normalize_ones 1023).
Qed.

(** X11: the outcome of the loop depends only on the sequence of delivered
    blocks, not on how callbacks and loop iterations interleave: the exit
    reason and state are those of the loop body run over the delivered
    blocks in order, what is delivered after the loop has stopped is
    ignored, and two error-free sessions that deliver the same blocks and
    return, return the same recording. *)
Theorem recording_depends_only_on_block_sequence :
  (forall cfg t why s,
     capture_loop cfg initial_session t = Exited why s ->
     run_blocks cfg initial_state (delivered t) = Break why (st s)) /\
  (forall cfg t t' why s,
     capture_loop cfg initial_session t = Exited why s ->
     capture_loop cfg initial_session (t ++ t') = Exited why s) /\
  (forall cfg query drv1 drv2 out1 out2,
     delivered (trace drv1) = delivered (trace drv2) ->
     record_until_silence cfg query drv1 = Return out1 ->
     record_until_silence cfg query drv2 = Return out2 ->
     out1 = out2).
Proof.
  split; [exact run_blocks_from_capture_loop |]. split.
  - intros cfg t t' why s H. apply capture_loop_exit_stable, H.
  - intros cfg query drv1 drv2 out1 out2 Hd H1 H2.
    apply record_until_silence_returns in H1, H2.
    destruct H1 as (_ & _ & _ & why1 & s1 & Hl1 & Hn1).
    destruct H2 as (_ & _ & _ & why2 & s2 & Hl2 & Hn2).
    apply run_blocks_from_capture_loop in Hl1, Hl2.
    rewrite Hd in Hl1. rewrite Hl1 in Hl2. injection Hl2 as _ Hst.
    rewrite Hst in Hn1. rewrite Hn1 in Hn2. injection Hn2 as ->. reflexivity.
Qed.

Lemma recording_depends_only_on_block_sequence_witness :
  run_blocks short_config initial_state
    (delivered [Callback (ones 1024); Iterate])
  = Break BreakMax (mk_state [ones 1024] 0 1024) /\
  capture_loop short_config initial_session
    ([Callback (ones 1024); Iterate] ++ [Callback (zeros 1024); Iterate])
  = Exited BreakMax (mk_session new_Queue (mk_state [ones 1024] 0 1024)).
Proof.
  destruct recording_depends_only_on_block_sequence as (T1 & T2 & _).
  split.
  - exact (T1 short_config _ _ _ capture_loop_one_loud_block).
  - exact (T2 short_config _ _ _ _ capture_loop_one_loud_block).
Defined.

(** X12: run over a block sequence, the loop stops at the first non-empty
    prefix that meets the stopping condition (enough trailing silence after
    more than that much audio, or the maximum amount of audio) and at no
    shorter one; if it does not stop, it has collected every block and no
    non-empty prefix meets the condition. *)
Theorem loop_stops_at_first_stopping_prefix (cfg : config) (cs : list chunk) :
  (forall why st',
     run_blocks cfg initial_state cs = Break why st' ->
     exists rest,
       cs = chunks st' ++ rest /\ chunks st' <> [] /\
       stop_condition cfg (chunks st') /\
       (forall p q, chunks st' = p ++ q -> p <> [] -> q <> [] ->
          ~ stop_condition cfg p)) /\
  (forall st',
     run_blocks cfg initial_state cs = Continue st' ->
     chunks st' = cs /\
     (forall p q, cs = p ++ q -> p <> [] -> ~ stop_condition cfg p)).
Proof.
  split.
  - intros why st' H.
    destruct (run_blocks_break cfg cs initial_state st' why
                (counters_ok_initial cfg) H)
      as (consumed & rest & Hcs & Hne & Hch & Hok & Hwhy & Hmin).
    simpl in Hch. subst consumed. exists rest.
    split; [exact Hcs |]. split; [exact Hne |]. split; [| exact Hmin].
    apply (counters_ok_stop_condition cfg st' Hok).
    destruct why; tauto.
  - intros st' H.
    destruct (run_blocks_continue cfg cs initial_state st'
                (counters_ok_initial cfg) H) as (Hch & _ & Hmin).
    split; [exact Hch | exact Hmin].
Qed.

Lemma loop_stops_at_first_stopping_prefix_witness :
  exists rest,
    [ones 1024] = [ones 1024] ++ rest /\ [ones 1024] <> [] /\
    stop_condition short_config [ones 1024] /\
    (forall p q, [ones 1024] = p ++ q -> p <> [] -> q <> [] ->
       ~ stop_condition short_config p).
Proof.
  exact (proj1 (loop_stops_at_first_stopping_prefix short_config [ones 1024])
           _ _ run_blocks_one_loud_block).
Defined.

End BlockSequenceTheorems.

Section RecordingLength.
Local Open Scope Z_scope.

Lemma trailing_silent_run_loud_then_quiet (cfg : config)
    (loud quiet : list chunk) :
  Forall (fun c => is_silent cfg c = false) loud ->
  Forall (fun c => is_silent cfg c = true) quiet ->
  trailing_silent_run cfg (loud ++ quiet) = quiet.
Proof.
  intros Hl. induction quiet as [| c quiet IH] using rev_ind; intros Hq.
  - rewrite app_nil_r. destruct loud as [| x loud] using rev_ind.
    + reflexivity.
    + rewrite trailing_silent_run_snoc.
      apply Forall_app in Hl. destruct Hl as [_ Hx].
      inversion Hx as [| ? ? Hx' _]; subst. rewrite Hx'. reflexivity.
  - apply Forall_app in Hq. destruct Hq as [Hq Hc].
    inversion Hc as [| ? ? Hc' _]; subst.
    rewrite app_assoc, trailing_silent_run_snoc, Hc', (IH Hq). reflexivity.
Qed.

Lemma trailing_silent_run_all_loud (cfg : config) (loud : list chunk) :
  Forall (fun c => is_silent cfg c = false) loud ->
  trailing_silent_run cfg loud = [].
Proof.
  intros H. rewrite <- (app_nil_r loud).
  apply trailing_silent_run_loud_then_quiet; [exact H | constructor].
Qed.

(** What is known of a returned recording: the exit of the loop it came
    from, and its length. *)
Lemma record_until_silence_returns_length (cfg : config)
    (query : result device_info) (drv : driver) (out : ndarray) :
  record_until_silence cfg query drv = Return out ->
  exists why consumed rest,
    delivered (trace drv) = consumed ++ rest /\ consumed <> [] /\
    Z.of_nat (List.length (data out)) = total_len consumed /\
    run_blocks cfg initial_state (delivered (trace drv))
      = Break why (mk_state consumed
                     (total_len (trailing_silent_run cfg consumed))
                     (total_len consumed)) /\
    stop_condition cfg consumed /\
    (forall p q, consumed = p ++ q -> p <> [] -> q <> [] ->
       ~ stop_condition cfg p).
Proof.
  intros H. apply record_until_silence_returns in H.
  destruct H as (_ & _ & _ & why & s & Hl & Hn).
  apply run_blocks_from_capture_loop in Hl.
  destruct (run_blocks_break cfg _ initial_state (st s) why
              (counters_ok_initial cfg) Hl)
    as (consumed & rest & Hcs & Hne & Hch & Hok & Hwhy & Hmin).
  simpl in Hch, Hmin.
  exists why, consumed, rest.
  split; [exact Hcs |]. split; [exact Hne |].
  apply normalize_length in Hn. destruct Hn as [_ Hlen]. simpl in Hlen.
  split; [rewrite Hlen, total_len_concat, Hch; reflexivity |].
  split.
  - rewrite Hl. f_equal. destruct Hok as [Hs Ht].
    destruct (st s) as [ch sil tot]. simpl in *. subst ch. congruence.
  - split; [| exact Hmin].
    rewrite <- Hch. apply (counters_ok_stop_condition cfg (st s) Hok).
    destruct why; tauto.
Qed.

(** X13: the length of a recording returned by [record_until_silence] is
    the number of samples of the blocks collected; it exceeds the silence
    bound or reaches the maximum; and with a positive maximum and blocks of
    at most [BLOCK_SIZE] samples it overshoots the maximum by less than one
    block. *)
Theorem recording_length_bounds (cfg : config) (query : result device_info)
    (drv : driver) (out : ndarray) :
  record_until_silence cfg query drv = Return out ->
  let L := Z.of_nat (List.length (data out)) in
  (silent_samples_needed cfg < L \/ max_samples cfg <= L) /\
  L <= total_len (delivered (trace drv)) /\
  (0 < max_samples cfg ->
   Forall (fun c => len c <= BLOCK_SIZE) (delivered (trace drv)) ->
   L < max_samples cfg + BLOCK_SIZE).
Proof.
  intros H L.
  destruct (record_until_silence_returns_length cfg query drv out H)
    as (why & consumed & rest & Hcs & Hne & Hlen & _ & Hstop & Hmin).
  fold L in Hlen. split; [| split].
  - destruct Hstop as [[_ Hs] | Hm]; [left | right]; lia.
  - rewrite Hcs, total_len_app, Hlen. pose proof (total_len_nonneg rest). lia.
  - intros HM Hblocks.
    destruct (exists_last Hne) as (p & c & Hpc).
    assert (Hc : len c <= BLOCK_SIZE).
    { rewrite Forall_forall in Hblocks. apply Hblocks.
      rewrite Hcs, Hpc. apply in_or_app. left. apply in_or_app. right.
      left. reflexivity. }
    rewrite Hlen, Hpc, total_len_snoc.
    destruct p as [| x p].
    + simpl. lia.
    + assert (Hp : ~ stop_condition cfg (x :: p)).
      { apply (Hmin (x :: p) [c] Hpc); discriminate. }
      unfold stop_condition in Hp.
      assert (total_len (x :: p) < max_samples cfg) by lia. lia.
Qed.

Lemma recording_length_bounds_witness :
  let L := Z.of_nat (List.length (data (mk_ndarray Float32 (ones 1024)))) in
  (silent_samples_needed short_config < L \/ max_samples short_config <= L) /\
  L <= total_len (delivered [Callback (ones 1024); Iterate]) /\
  (0 < max_samples short_config ->
   Forall (fun c => len c <= BLOCK_SIZE)
          (delivered [Callback (ones 1024); Iterate]) ->
   L < max_samples short_config + BLOCK_SIZE).
Proof.
  exact (recording_length_bounds short_config _ _ _
           record_until_silence_one_loud_block).
Defined.

(** X14: a stream that never goes silent (with a positive silence bound)
    never leaves the loop through the silence break, and leaves it through
    the max-duration break exactly when the audio delivered reaches the
    maximum. *)
Theorem never_silent_stream_ends_at_max (cfg : config) (cs : list chunk) :
  0 < silent_samples_needed cfg ->
  Forall (fun c => is_silent cfg c = false) cs ->
  (forall st', run_blocks cfg initial_state cs <> Break BreakSilence st') /\
  (cs <> [] ->
   ((exists st', run_blocks cfg initial_state cs = Break BreakMax st')
    <-> max_samples cfg <= total_len cs)).
Proof.
  intros HN Hloud.
  assert (Hno : forall st',
             run_blocks cfg initial_state cs <> Break BreakSilence st').
  { intros st' H.
    destruct (run_blocks_break cfg cs initial_state st' BreakSilence
                (counters_ok_initial cfg) H)
      as (consumed & rest & Hcs & Hne & Hch & Hok & Hwhy & _).
    simpl in Hch. destruct Hok as [Hs _]. destruct Hwhy as [Hsil _].
    rewrite Hs, Hch in Hsil.
    rewrite trailing_silent_run_all_loud in Hsil; [simpl in Hsil; lia |].
    rewrite Hcs in Hloud. apply Forall_app in Hloud. tauto. }
  split; [exact Hno |]. intros Hne. split.
  - intros [st' H].
    destruct (run_blocks_break cfg cs initial_state st' BreakMax
                (counters_ok_initial cfg) H)
      as (consumed & rest & Hcs & _ & Hch & Hok & Hwhy & _).
    simpl in Hch. destruct Hok as [_ Ht]. destruct Hwhy as [_ Hmax].
    unfold max_test in Hmax. rewrite Ht, Hch in Hmax.
    rewrite Hcs, total_len_app. pose proof (total_len_nonneg rest). lia.
  - intros HM.
    destruct (run_blocks cfg initial_state cs) as [st' | why st'] eqn:Hrun.
    + exfalso.
      destruct (run_blocks_continue cfg cs initial_state st'
                  (counters_ok_initial cfg) Hrun) as (_ & _ & Hmin).
      apply (Hmin cs [] (eq_sym (app_nil_r cs)) Hne).
      right. exact HM.
    + destruct why; [exfalso; exact (Hno st' eq_refl) | exists st'; reflexivity].
Qed.

Lemma never_silent_stream_ends_at_max_witness :
  (forall st',
     run_blocks short_config initial_state [ones 1024]
     <> Break BreakSilence st') /\
  ([ones 1024] <> [] ->
   ((exists st',
       run_blocks short_config initial_state [ones 1024] = Break BreakMax st')
    <-> max_samples short_config <= total_len [ones 1024])).
Proof.
  apply never_silent_stream_ends_at_max.
  - reflexivity.
  - repeat constructor. apply (is_silent_ones short_config 1023). simpl. lra.
Defined.

(** X15: when silence follows speech (a first part with samples, none of
    its blocks silent, then only silent blocks) and the maximum is not
    reached, the loop leaves through the silence break exactly when the
    silent part amounts to the silence bound, the bound included, and never
    through the max-duration break. *)
Theorem silence_after_speech_ends_session (cfg : config)
    (loud quiet : list chunk) :
  Forall (fun c => is_silent cfg c = false) loud ->
  Forall (fun c => is_silent cfg c = true) quiet ->
  0 < total_len loud ->
  total_len (loud ++ quiet) < max_samples cfg ->
  ((exists st',
      run_blocks cfg initial_state (loud ++ quiet) = Break BreakSilence st')
   <-> silent_samples_needed cfg <= total_len quiet) /\
  (forall st',
     run_blocks cfg initial_state (loud ++ quiet) <> Break BreakMax st').
Proof.
  intros Hloud Hquiet Hpos HM.
  assert (Hno : forall st',
             run_blocks cfg initial_state (loud ++ quiet) <> Break BreakMax st').
  { intros st' H.
    destruct (run_blocks_break cfg _ initial_state st' BreakMax
                (counters_ok_initial cfg) H)
      as (consumed & rest & Hcs & _ & Hch & Hok & Hwhy & _).
    simpl in Hch. destruct Hok as [_ Ht]. destruct Hwhy as [_ Hmax].
    unfold max_test in Hmax. rewrite Ht, Hch in Hmax.
    rewrite Hcs, total_len_app in HM. pose proof (total_len_nonneg rest). lia. }
  split; [| exact Hno]. split.
  - intros [st' H].
    destruct (run_blocks_break cfg _ initial_state st' BreakSilence
                (counters_ok_initial cfg) H)
      as (consumed & rest & Hcs & Hne & Hch & Hok & Hwhy & _).
    simpl in Hch. destruct Hok as [Hs _]. destruct Hwhy as [Hsil _].
    rewrite Hs, Hch in Hsil. symmetry in Hcs.
    apply app_eq_app in Hcs. destruct Hcs as [l [[Hc Hr] | [Hc Hr]]].
    + (* the break falls inside the quiet part *)
      rewrite Hr in Hquiet. apply Forall_app in Hquiet.
      rewrite Hc, trailing_silent_run_loud_then_quiet in Hsil by tauto.
      rewrite Hr, total_len_app. pose proof (total_len_nonneg rest). lia.
    + (* the break falls inside the loud part: the bound is not positive *)
      rewrite Hc in Hloud. apply Forall_app in Hloud.
      rewrite trailing_silent_run_all_loud in Hsil by tauto.
      simpl in Hsil. pose proof (total_len_nonneg quiet). lia.
  - intros Hq.
    destruct (run_blocks cfg initial_state (loud ++ quiet)) as [st' | why st']
      eqn:Hrun.
    + exfalso.
      destruct (run_blocks_continue cfg _ initial_state st'
                  (counters_ok_initial cfg) Hrun) as (_ & _ & Hmin).
      apply (Hmin (loud ++ quiet) [] (eq_sym (app_nil_r _))).
      * destruct loud; [simpl in Hpos; lia | discriminate].
      * change (chunks initial_state ++ (loud ++ quiet)) with (loud ++ quiet).
        left. rewrite (trailing_silent_run_loud_then_quiet cfg loud quiet Hloud Hquiet).
        rewrite total_len_app. lia.
    + destruct why; [exists st'; reflexivity | exfalso; exact (Hno st' eq_refl)].
Qed.

End RecordingLength.

Section RecordingLength2.
Local Open Scope Z_scope.

Lemma silence_after_speech_ends_session_witness :
  exists st',
    run_blocks quick_silence_config initial_state ([ones 1024] ++ [zeros 1024])
    = Break BreakSilence st'.
Proof.
  assert (Hlo : (-120 < threshold_db quick_silence_config)%R) by (simpl; lra).
  assert (Hhi : (threshold_db quick_silence_config <= 0)%R) by (simpl; lra).
  apply (proj1 (silence_after_speech_ends_session quick_silence_config
                  [ones 1024] [zeros 1024]
                  ltac:(repeat constructor; apply (is_silent_ones _ 1023 Hhi))
                  ltac:(repeat constructor; apply (is_silent_zeros _ 1023 Hlo))
                  ltac:(reflexivity) ltac:(reflexivity))).
  unfold total_len, fold_right. rewrite len_zeros.
  change (silent_samples_needed quick_silence_config) with 1000. lia.
Defined.




(** X17: neither capture operation ever returns a zero-length recording:
    [record_until_silence] leaves its loop only after a block was appended,
    and [record_for_duration] raises on an empty recording. *)
Theorem capture_never_returns_empty :
  (forall cfg query drv out,
     record_until_silence cfg query drv = Return out -> data out <> []) /\
  (forall d query sd_rec out,
     record_for_duration d query sd_rec = Return out -> data out <> []).
Proof.
  split.
  - intros cfg query drv out H.
    apply record_until_silence_returns in H.
    destruct H as (_ & _ & _ & why & s & _ & Hn).
    apply normalize_length in Hn. destruct Hn as [Hne Hlen]. simpl in *.
    intros E. rewrite E in Hlen. simpl in Hlen.
    destruct (List.concat (chunks (st s))); [congruence | discriminate].
  - intros d query sd_rec out H. unfold record_for_duration in H.
    destruct (_ensure_mic_available query) as [[] | e |]; simpl in H;
      try discriminate.
    destruct (translate_PortAudioError _) as [r | e |]; simpl in H;
      try discriminate.
    apply normalize_length in H. destruct H as [Hne Hlen].
    intros E. rewrite E in Hlen. simpl in Hlen.
    destruct (data r); [congruence | discriminate].
Qed.

Lemma capture_never_returns_empty_witness :
  data (mk_ndarray Float32 (ones 1024)) <> [].
Proof.
  exact (proj1 capture_never_returns_empty short_config _ _ _
           record_until_silence_one_loud_block).
Defined.

End RecordingLength2.

(** * Properties of the collaborators *)

(** ** Dictionaries *)

Section Dictionaries.
Context {V : Type}.

Lemma dict_get_set (k k' : string) (v : V) (d : list (string * V)) :
  dict_get k (dict_set k' v d) =
  if String.eqb k k' then Some v else dict_get k d.
Proof.
  induction d as [| [k0 v0] d IH]; simpl.
  - reflexivity.
  - destruct (String.eqb k' k0) eqn:E0; simpl.
    + apply String.eqb_eq in E0. subst k0.
      destruct (String.eqb k k'); reflexivity.
    + destruct (String.eqb k k0) eqn:E1.
      * apply String.eqb_eq in E1. subst k0.
        destruct (String.eqb k k') eqn:E2; [| reflexivity].
        apply String.eqb_eq in E2. subst k'.
        rewrite String.eqb_refl in E0. discriminate.
      * exact IH.
Qed.

Lemma dict_get_in_keys (k : string) (d : list (string * V)) (v : V) :
  dict_get k d = Some v -> In k (dict_keys d).
Proof.
  induction d as [| [k0 v0] d IH]; simpl; [discriminate |].
  destruct (String.eqb k k0) eqn:E.
  - apply String.eqb_eq in E. auto.
  - intros H. right. apply IH, H.
Qed.

Lemma dict_get_none_not_in (k : string) (d : list (string * V)) :
  dict_get k d = None -> ~ In k (dict_keys d).
Proof.
  induction d as [| [k0 v0] d IH]; simpl; [tauto |].
  destruct (String.eqb k k0) eqn:E; [discriminate |].
  intros H [H0 | H0].
  - subst k0. rewrite String.eqb_refl in E. discriminate.
  - exact (IH H H0).
Qed.

Lemma dict_keys_set (k : string) (v : V) (d : list (string * V)) :
  dict_keys (dict_set k v d) =
  match dict_get k d with
  | Some _ => dict_keys d
  | None => dict_keys d ++ [k]
  end.
Proof.
  induction d as [| [k0 v0] d IH]; simpl; [reflexivity |].
  destruct (String.eqb k k0) eqn:E; simpl; [reflexivity |].
  rewrite IH. destruct (dict_get k d); reflexivity.
Qed.

End Dictionaries.

(** ** Push-to-talk *)

Section PushToTalkFacts.
Import Hotkey.

Lemma handle_keeps_trigger (p : PushToTalk) (e : event) :
  _trigger_key (fst (handle p e)) = _trigger_key p /\
  _trigger_key_name (fst (handle p e)) = _trigger_key_name p /\
  _listener (fst (handle p e)) = _listener p.
Proof.
  destruct e as [k | k]; simpl; unfold _on_press, _on_release;
    destruct (is_trigger p k); destruct (_active p); simpl; auto.
Qed.

Lemma is_trigger_after_handle (p : PushToTalk) (e : event) (k : key) :
  is_trigger (fst (handle p e)) k = is_trigger p k.
Proof.
  unfold is_trigger. destruct (handle_keeps_trigger p e) as [-> _]. reflexivity.
Qed.

Lemma handle_log (p : PushToTalk) (e : event) :
  alternates (_active p) (snd (handle p e)) = true /\
  _active (fst (handle p e)) =
    xorb (_active p) (Nat.odd (List.length (snd (handle p e)))) /\
  (List.length (snd (handle p e)) <= 1)%nat.
Proof.
  destruct e as [k | k]; simpl; unfold _on_press, _on_release;
    destruct (is_trigger p k); destruct (_active p) eqn:E; simpl;
    rewrite ?E; auto.
Qed.

Lemma alternates_app (a : bool) (l1 l2 : list callback) :
  alternates a l1 = true ->
  alternates (xorb a (Nat.odd (List.length l1))) l2 = true ->
  alternates a (l1 ++ l2) = true.
Proof.
  revert a. induction l1 as [| c l1 IH]; intros a H1 H2.
  - simpl in *. destruct a; exact H2.
  - destruct c; simpl in H1 |- *; apply andb_true_iff in H1;
      destruct H1 as [Ha H1]; apply andb_true_iff; (split; [exact Ha |]);
      apply IH; try exact H1;
      destruct a; try discriminate;
      change (List.length (_ :: l1)) with (S (List.length l1)) in H2;
      rewrite Nat.odd_succ in H2; rewrite <- Nat.negb_odd in H2;
      destruct (Nat.odd (List.length l1)); exact H2.
Qed.

Lemma dispatch_cons (p : PushToTalk) (e : event) (rest : list event) :
  dispatch p (e :: rest) =
  (fst (dispatch (fst (handle p e)) rest),
   snd (handle p e) ++ snd (dispatch (fst (handle p e)) rest)).
Proof.
  simpl. destruct (handle p e) as [p1 l1]. simpl.
  destruct (dispatch p1 rest) as [p2 l2]. reflexivity.
Qed.

End PushToTalkFacts.

Section PushToTalkTheorems.
Import Hotkey.

(** X18: whatever keys are pressed and released, the two callbacks of a
    [PushToTalk] take turns: [on_start] is called only while the key is not
    marked held and [on_stop] only while it is, each call flips
    [is_active], and there is at most one call per key event. *)
Theorem push_to_talk_callbacks_alternate (p : PushToTalk)
    (events : list event) :
  alternates (_active p) (snd (dispatch p events)) = true /\
  is_active (fst (dispatch p events)) =
    xorb (_active p) (Nat.odd (List.length (snd (dispatch p events)))) /\
  (List.length (snd (dispatch p events)) <= List.length events)%nat.
Proof.
  revert p. induction events as [| e rest IH]; intros p.
  - unfold is_active. simpl. destruct (_active p); auto.
  - rewrite dispatch_cons. cbn [fst snd].
    destruct (handle_log p e) as (Ha & Hf & Hl).
    destruct (IH (fst (handle p e))) as (Ha' & Hf' & Hl').
    split; [| split].
    + apply alternates_app; [exact Ha |]. rewrite <- Hf. exact Ha'.
    + unfold is_active in *. rewrite Hf', Hf, length_app, Nat.odd_add.
      destruct (_active p), (Nat.odd _), (Nat.odd _); reflexivity.
    + rewrite length_app. simpl. lia.
Qed.

(** X19: only events of the trigger key matter to a [PushToTalk]: events of
    other keys can be removed without changing the callbacks or the final
    object, an object whose trigger key is not resolved yet ignores every
    event, and an event repeated right after itself (key auto-repeat) has no
    effect the second time. *)
Theorem push_to_talk_ignores_other_keys (p : PushToTalk)
    (events : list event) :
  dispatch p events =
    dispatch p (filter (fun e => is_trigger p (event_key e)) events) /\
  (_trigger_key p = None -> dispatch p events = (p, [])) /\
  (forall e, dispatch p (e :: e :: events) = dispatch p (e :: events)).
Proof.
  assert (Hfilter : forall evs q,
            dispatch q evs =
            dispatch q (filter (fun e => is_trigger q (event_key e)) evs)).
  { induction evs as [| e rest IH]; intros q; [reflexivity |].
    cbn [filter]. destruct (is_trigger q (event_key e)) eqn:E.
    - rewrite !dispatch_cons. rewrite (IH (fst (handle q e))).
      rewrite (filter_ext _ (fun e0 => is_trigger q (event_key e0)))
        by (intros a; apply is_trigger_after_handle).
      reflexivity.
    - rewrite dispatch_cons.
      assert (Hh : handle q e = (q, [])).
      { destruct e as [k | k]; simpl in *; unfold _on_press, _on_release;
          rewrite E; reflexivity. }
      rewrite Hh. cbn [fst snd app]. rewrite <- IH.
      destruct (dispatch q rest); reflexivity. }
  split; [apply Hfilter |]. split.
  - intros Hnone. rewrite Hfilter.
    rewrite (filter_ext _ (fun _ => false)).
    + assert (Hnil : filter (fun _ : event => false) events = []).
      { clear. induction events as [| e rest IH]; [reflexivity | exact IH]. }
      rewrite Hnil. reflexivity.
    + intros e. unfold is_trigger. rewrite Hnone. reflexivity.
  - intros e. rewrite (dispatch_cons p e (e :: events)).
    rewrite (dispatch_cons (fst (handle p e)) e events).
    rewrite (dispatch_cons p e events).
    assert (Hh : handle (fst (handle p e)) e = (fst (handle p e), [])).
    { destruct e as [k | k]; simpl; unfold _on_press, _on_release;
        destruct (is_trigger p k) eqn:E; destruct (_active p) eqn:A; simpl;
        unfold is_trigger in *; simpl; rewrite ?E, ?A; reflexivity. }
    rewrite Hh. reflexivity.
Qed.

Lemma push_to_talk_ignores_other_keys_witness :
  dispatch (init "alt_r") [Press (Special "alt_r"); Release (Special "alt_r")]
  = (init "alt_r", []).
Proof.
  apply (proj1 (proj2 (push_to_talk_ignores_other_keys (init "alt_r") _))).
  reflexivity.
Defined.

Lemma key_map_of_get (has : string -> bool) (names : list string)
    (acc : list (string * key)) (n : string) :
  dict_get n
    (fold_left
       (fun m name => if has name then dict_set name (Special name) m else m)
       names acc)
  = if existsb (String.eqb n) names && has n then Some (Special n)
    else dict_get n acc.
Proof.
  revert acc. induction names as [| x names IH]; intros acc; simpl.
  - reflexivity.
  - rewrite IH. destruct (String.eqb n x) eqn:E; simpl.
    + apply String.eqb_eq in E. subst x.
      destruct (has n) eqn:Hn.
      * rewrite dict_get_set, String.eqb_refl.
        destruct (existsb _ names); reflexivity.
      * rewrite andb_false_r. reflexivity.
    + destruct (has x).
      * rewrite dict_get_set, E. reflexivity.
      * reflexivity.
Qed.

Lemma existsb_eqb_in (n : string) (names : list string) :
  existsb (String.eqb n) names = true <-> In n names.
Proof.
  rewrite existsb_exists. split.
  - intros (x & Hin & E). apply String.eqb_eq in E. subst. exact Hin.
  - intros Hin. exists n. split; [exact Hin | apply String.eqb_refl].
Qed.

(** X20: [start] accepts a trigger key name exactly when it is one of the
    26 names of [key_names] and the platform's [Key] enumeration has it;
    the key resolved is then that member. Otherwise [start] raises a
    [HotkeyError] and leaves the object as it was: no listener, no trigger
    key, so no callback can fire. *)
Theorem start_accepts_known_platform_keys (repr : string -> string)
    (has : string -> bool) (listener : listener_outcome) (p : PushToTalk) :
  (In (_trigger_key_name p) key_names /\ has (_trigger_key_name p) = true ->
   _resolve_key repr has p = Returns (Special (_trigger_key_name p)) /\
   _trigger_key (fst (start repr has listener p))
     = Some (Special (_trigger_key_name p))) /\
  (~ (In (_trigger_key_name p) key_names /\ has (_trigger_key_name p) = true) ->
   exists msg,
     _resolve_key repr has p = Raises (HotkeyError msg) /\
     start repr has listener p = (p, Raises (HotkeyError msg))).
Proof.
  unfold start, _resolve_key, key_map, key_map_of.
  rewrite key_map_of_get. simpl dict_get.
  destruct (existsb (String.eqb (_trigger_key_name p)) key_names
            && has (_trigger_key_name p)) eqn:E.
  - split.
    + intros _. split; [reflexivity |]. destruct listener; reflexivity.
    + intros Hn. exfalso. apply Hn. apply andb_true_iff in E.
      destruct E as [E1 E2]. split; [apply existsb_eqb_in, E1 | exact E2].
  - split.
    + intros [Hin Hhas]. apply existsb_eqb_in in Hin.
      rewrite Hin, Hhas in E. discriminate.
    + intros _. eexists. split; reflexivity.
Qed.

Lemma start_accepts_known_platform_keys_witness :
  _resolve_key (fun s => s) (fun _ => true) (init "f5") = Returns (Special "f5") /\
  (exists msg,
     _resolve_key (fun s => s) (fun _ => true) (init "nonexistent_key_xyz")
       = Raises (HotkeyError msg) /\
     start (fun s => s) (fun _ => true) ListenerStarted (init "nonexistent_key_xyz")
       = (init "nonexistent_key_xyz", Raises (HotkeyError msg))).
Proof.
  split.
  - apply (proj1 (start_accepts_known_platform_keys (fun s => s) (fun _ => true)
                    ListenerStarted (init "f5"))).
    split; [simpl; tauto | reflexivity].
  - apply (proj2 (start_accepts_known_platform_keys (fun s => s) (fun _ => true)
                    ListenerStarted (init "nonexistent_key_xyz"))).
    intros [Hin _]. simpl in Hin.
    repeat (destruct Hin as [Hin | Hin]; [discriminate |]). exact Hin.
Defined.

End PushToTalkTheorems.

(** ** Strings *)

Section StringFacts.
Local Open Scope string_scope.

Lemma blank_append (a b : string) : blank (a ++ b) = blank a && blank b.
Proof.
  induction a as [| c a IH]; simpl; [reflexivity |].
  rewrite IH. apply andb_assoc.
Qed.

Lemma lstrip_blank (s : string) : blank s = true -> lstrip s = "".
Proof.
  induction s as [| c s IH]; simpl; [reflexivity |].
  intros H. apply andb_true_iff in H. destruct H as [Hc Hs].
  rewrite Hc. apply IH, Hs.
Qed.

Lemma blank_lstrip (s : string) : blank (lstrip s) = blank s.
Proof.
  induction s as [| c s IH]; simpl; [reflexivity |].
  destruct (is_space c) eqn:E; simpl; [exact IH | rewrite E; reflexivity].
Qed.

Lemma rstrip_empty_iff (s : string) : rstrip s = "" <-> blank s = true.
Proof.
  induction s as [| c s IH]; simpl; [tauto |].
  destruct (rstrip s) as [| c' r] eqn:E.
  - assert (Hs : blank s = true) by (apply IH; reflexivity).
    rewrite Hs, andb_true_r. destruct (is_space c); split; intros; auto;
      discriminate.
  - assert (Hs : blank s = false).
    { destruct (blank s) eqn:B; [| reflexivity].
      assert (String c' r = "") by (apply IH; reflexivity). discriminate. }
    rewrite Hs, andb_false_r. split; intros; discriminate.
Qed.

Lemma strip_empty_iff (s : string) : strip s = "" <-> blank s = true.
Proof.
  unfold strip. rewrite rstrip_empty_iff, blank_lstrip. reflexivity.
Qed.

(** A string that is empty or starts with a character that is no space. *)
Lemma lstrip_head (s : string) :
  match lstrip s with
  | EmptyString => True
  | String c _ => is_space c = false
  end.
Proof.
  induction s as [| c s IH]; simpl; [exact I |].
  destruct (is_space c) eqn:E; [exact IH | exact E].
Qed.

Lemma rstrip_head (s : string) :
  match rstrip s with
  | EmptyString => True
  | String c _ =>
      match s with EmptyString => False | String c0 _ => c = c0 end
  end.
Proof.
  destruct s as [| c s]; simpl; [exact I |].
  destruct (rstrip s); [destruct (is_space c) |]; simpl; auto.
Qed.

Lemma rstrip_idempotent (s : string) : rstrip (rstrip s) = rstrip s.
Proof.
  induction s as [| c s IH]; simpl; [reflexivity |].
  destruct (rstrip s) as [| c' r] eqn:E.
  - destruct (is_space c) eqn:Ec; simpl; [reflexivity |].
    rewrite Ec. reflexivity.
  - change (rstrip (String c (String c' r)))
      with (match rstrip (String c' r) with
            | EmptyString =>
                if is_space c then EmptyString else String c EmptyString
            | kept => String c kept
            end).
    rewrite IH. reflexivity.
Qed.

Lemma strip_idempotent (s : string) : strip (strip s) = strip s.
Proof.
  unfold strip.
  assert (H : lstrip (rstrip (lstrip s)) = rstrip (lstrip s)).
  { pose proof (lstrip_head s) as Hh. pose proof (rstrip_head (lstrip s)) as Hr.
    destruct (rstrip (lstrip s)) as [| c r]; [reflexivity |].
    destruct (lstrip s) as [| c0 t]; [contradiction |]. subst c0.
    simpl. rewrite Hh. reflexivity. }
  rewrite H. apply rstrip_idempotent.
Qed.

Lemma blank_strip (s : string) : blank (strip s) = blank s.
Proof.
  destruct (blank s) eqn:B.
  - apply strip_empty_iff in B. rewrite B. reflexivity.
  - destruct (blank (strip s)) eqn:B'; [| reflexivity].
    assert (Hs : strip (strip s) = "") by (apply strip_empty_iff, B').
    rewrite strip_idempotent in Hs. apply strip_empty_iff in Hs. congruence.
Qed.

Lemma blank_concat_space (l : list string) :
  blank (String.concat " " l) = forallb blank l.
Proof.
  induction l as [| x l IH]; [reflexivity |].
  destruct l as [| y l].
  - simpl. rewrite andb_true_r. reflexivity.
  - change (String.concat " " (x :: y :: l))
      with (x ++ " " ++ String.concat " " (y :: l)).
    rewrite !blank_append, IH. reflexivity.
Qed.

End StringFacts.

(** ** Transcriber *)

Section TranscriberTheorems.
Import Transcriber.
Context {Model : Type}.

Lemma valid_size_check (size : string) :
  existsb (String.eqb size) VALID_MODEL_SIZES = true <-> In size VALID_MODEL_SIZES.
Proof. apply existsb_eqb_in. Qed.

(** X21: a model is loaded at most once per size: after [get_model] has
    returned a model for a size, every later call for that size on the
    resulting cache returns the same model and leaves the cache as it is,
    whatever the constructor or the device detection would now do. *)
Theorem get_model_loads_once (repr : string -> string) (torch : option bool)
    (WhisperModel : string -> string -> string -> result Model)
    (models models' : list (string * Model)) (size : string) (m : Model) :
  get_model repr torch WhisperModel models size = (models', Return m) ->
  forall repr' torch' WhisperModel',
    get_model repr' torch' WhisperModel' models' size = (models', Return m).
Proof.
  unfold get_model.
  destruct (negb (existsb (String.eqb size) VALID_MODEL_SIZES)) eqn:Hv;
    [discriminate |].
  destruct (dict_get size models) as [m0 |] eqn:Hg.
  - intros [= <- <-] repr' torch' W'. rewrite Hg. reflexivity.
  - destruct (_detect_device torch) as [device compute_type].
    destruct (WhisperModel size device compute_type) as [m0 | e |];
      try discriminate.
    intros [= <- <-] repr' torch' W'.
    rewrite dict_get_set, String.eqb_refl. reflexivity.
Qed.

(** X22: the model cache only ever holds valid sizes, each once, so never
    more than four models; a call never replaces or drops a cached model,
    and a call that does not return a model (invalid size, failing
    constructor) leaves the cache unchanged. *)
Theorem get_model_keeps_cache_ok (repr : string -> string)
    (torch : option bool)
    (WhisperModel : string -> string -> string -> result Model)
    (models : list (string * Model)) (size : string) :
  cache_ok models ->
  let models' := fst (get_model repr torch WhisperModel models size) in
  cache_ok models' /\
  (List.length models' <= 4)%nat /\
  (forall k m, dict_get k models = Some m -> dict_get k models' = Some m) /\
  ((forall m, snd (get_model repr torch WhisperModel models size) <> Return m) ->
   models' = models) /\
  (~ In size VALID_MODEL_SIZES ->
   exists msg,
     get_model repr torch WhisperModel models size
     = (models, Raise (ValueError msg))).
Proof.
  intros Hok models'.
  assert (Hlen : forall d : list (string * Model), cache_ok d ->
                   (List.length d <= 4)%nat).
  { intros d [Hnd Hin].
    replace (List.length d) with (List.length (dict_keys d))
      by (unfold dict_keys; apply length_map).
    apply (NoDup_incl_length Hnd (l' := VALID_MODEL_SIZES)). exact Hin. }
  unfold models', get_model.
  destruct (existsb (String.eqb size) VALID_MODEL_SIZES) eqn:Hv; simpl negb; cbv iota.
  - apply valid_size_check in Hv.
    destruct (dict_get size models) as [m0 |] eqn:Hg; simpl.
    + split; [exact Hok |]. split; [apply Hlen, Hok |].
      split; [intros k m Hk; exact Hk |].
      split; [intros _; reflexivity | intros Hn; contradiction].
    + destruct (_detect_device torch) as [device compute_type].
      destruct (WhisperModel size device compute_type) as [m0 | e |]; simpl.
      * assert (Hok' : cache_ok (dict_set size m0 models)).
        { destruct Hok as [Hnd Hin]. unfold cache_ok.
          rewrite dict_keys_set, Hg. split.
          - apply NoDup_app; [exact Hnd | repeat constructor; simpl; tauto |].
            intros x Hx [Hx' | []]. subst x.
            exact (dict_get_none_not_in _ _ Hg Hx).
          - intros k Hk. apply in_app_or in Hk.
            destruct Hk as [Hk | [<- | []]]; [apply Hin, Hk | exact Hv]. }
        split; [exact Hok' |]. split; [apply Hlen, Hok' |].
        split; [| split].
        -- intros k m Hk. rewrite dict_get_set.
           destruct (String.eqb k size) eqn:E; [| exact Hk].
           apply String.eqb_eq in E. subst k. congruence.
        -- intros H. exfalso. exact (H m0 eq_refl).
        -- intros Hn. contradiction.
      * split; [exact Hok |]. split; [apply Hlen, Hok |].
        split; [intros k m Hk; exact Hk |].
        split; [intros _; reflexivity | intros Hn; contradiction].
      * split; [exact Hok |]. split; [apply Hlen, Hok |].
        split; [intros k m Hk; exact Hk |].
        split; [intros _; reflexivity | intros Hn; contradiction].
  - simpl. split; [exact Hok |]. split; [apply Hlen, Hok |].
    split; [intros k m Hk; exact Hk |].
    split; [intros _; reflexivity | intros _; eexists; reflexivity].
Qed.

End TranscriberTheorems.

Section TranscriberWitnesses.
Import Transcriber.

Lemma get_model_loads_once_witness :
  let W := fun (size device compute_type : string) =>
             Return (size, device, compute_type) in
  let cache := [("base"%string, ("base", "cpu", "int8")%string)] in
  get_model (fun s => s) (Some true)
    (fun _ _ _ => Raise (OtherError "no network")) cache "base"
  = (cache, Return ("base", "cpu", "int8")%string).
Proof.
  intros W cache.
  apply (get_model_loads_once (fun s => s) None W [] cache "base"%string).
  reflexivity.
Defined.

Lemma get_model_keeps_cache_ok_witness :
  let W := fun (size device compute_type : string) =>
             Return (size, device, compute_type) in
  cache_ok (fst (get_model (fun s => s) None W [] "tiny")) /\
  (exists msg,
     get_model (fun s => s) None W [] "huge" = ([], Raise (ValueError msg))).
Proof.
  intros W.
  assert (Hok : cache_ok (@nil (string * (string * string * string)))).
  { split; [constructor | intros k []]. }
  split.
  - apply (get_model_keeps_cache_ok (fun s => s) None W [] "tiny"%string Hok).
  - apply (get_model_keeps_cache_ok (fun s => s) None W [] "huge"%string Hok).
    simpl. intros H. repeat (destruct H as [H | H]; [discriminate |]). exact H.
Defined.

End TranscriberWitnesses.

Section TranscribeText.
Import Transcriber.
Context {Model : Type}.

(** X23: the text [transcribe] returns is the stripped join of the stripped
    segment texts: it has no leading or trailing whitespace, and it is empty
    exactly when every segment is empty or whitespace only (in particular
    when there is no segment). *)
Theorem transcribe_text_is_stripped (repr : string -> string)
    (torch : option bool)
    (WhisperModel : string -> string -> string -> result Model)
    (run : Model -> ndarray -> result (list string))
    (models models' : list (string * Model)) (audio : ndarray)
    (size text : string) :
  transcribe repr torch WhisperModel run models audio size
    = (models', Return text) ->
  exists model segments,
    get_model repr torch WhisperModel models size = (models', Return model) /\
    run model audio = Return segments /\
    strip text = text /\
    (text = EmptyString <-> Forall (fun s => blank s = true) segments).
Proof.
  unfold transcribe.
  destruct (get_model repr torch WhisperModel models size) as [ms got] eqn:Hg.
  destruct got as [model | e |]; simpl; try discriminate.
  destruct (run model audio) as [segments | e |] eqn:Hrun; simpl;
    try discriminate.
  intros [= <- <-]. exists model, segments.
  split; [reflexivity |]. split; [exact Hrun |].
  split; [apply strip_idempotent |].
  rewrite strip_empty_iff, blank_concat_space, forallb_forall, Forall_forall.
  split.
  - intros H s Hs. rewrite <- blank_strip. apply H. apply in_map, Hs.
  - intros H s Hs. apply in_map_iff in Hs. destruct Hs as (x & <- & Hx).
    rewrite blank_strip. apply H, Hx.
Qed.

End TranscribeText.

Section TranscribeWitness.
Import Transcriber.
Local Open Scope string_scope.

Lemma transcribe_text_is_stripped_witness :
  let W := fun (size device compute_type : string) =>
             Return (size, device, compute_type) in
  let run := fun (_ : string * string * string) (_ : ndarray) =>
               Return [" Hello "; " world "] in
  exists model segments,
    get_model (fun s => s) None W [] "base"
      = ([("base", ("base", "cpu", "int8"))], Return model) /\
    run model empty_float32 = Return segments /\
    strip "Hello world" = "Hello world" /\
    ("Hello world" = "" <-> Forall (fun s => blank s = true) segments).
Proof.
  intros W run.
  apply (transcribe_text_is_stripped (fun s => s) None W run [] _
           empty_float32 "base" "Hello world").
  reflexivity.
Defined.

End TranscribeWitness.

(** ** Output delivery *)

Section OutputTheorems.
Import Output.
Local Open Scope string_scope.

(** X24: [to_paste] keeps the promise of its error message: when the copy
    to the clipboard fails nothing else happens (no key is tapped, the
    clipboard keeps its content); when the copy works the clipboard holds
    the text however the paste ends, a failing paste raises the
    "text is still in clipboard" error, and a successful one has tapped "v"
    once, under cmd on macOS and ctrl elsewhere. *)
Theorem to_paste_keeps_text_in_clipboard (e : env) (text : string)
    (w : world) :
  (forall m, copy_error e = Some m ->
     to_paste e text w = (w, Some (OutputError ("Clipboard not available: " ++ m)))) /\
  (copy_error e = None ->
     clipboard (fst (to_paste e text w)) = text /\
     stdout (fst (to_paste e text w)) = stdout w /\
     match paste e with
     | PasteDone =>
         snd (to_paste e text w) = None /\
         taps (fst (to_paste e text w))
           = (taps w ++ [(if darwin e then "cmd" else "ctrl", "v")])%list
     | PasteFails m _ =>
         snd (to_paste e text w)
           = Some (OutputError
               ("Paste simulation failed (text is still in clipboard): " ++ m))
     end).
Proof.
  split.
  - intros m Hm. unfold to_paste, to_clipboard. rewrite Hm. reflexivity.
  - intros Hc. unfold to_paste, to_clipboard. rewrite Hc.
    destruct (paste e) as [| m tapped]; simpl; auto.
    destruct tapped; simpl; auto.
Qed.

Lemma to_paste_keeps_text_in_clipboard_witness :
  let e := mk_env None false (PasteFails "no display" false) WriteDone in
  let w := mk_world "old" "" [] in
  clipboard (fst (to_paste e "git status" w)) = "git status" /\
  to_paste (mk_env (Some "no xclip") false PasteDone WriteDone) "git status" w
    = (w, Some (OutputError "Clipboard not available: no xclip")).
Proof.
  intros e w. split.
  - apply (proj2 (to_paste_keeps_text_in_clipboard e "git status" w)).
    reflexivity.
  - apply (proj1 (to_paste_keeps_text_in_clipboard
                    (mk_env (Some "no xclip") false PasteDone WriteDone)
                    "git status" w)).
    reflexivity.
Defined.

Lemma valid_mode_cases (mode : string) :
  In mode VALID_MODES ->
  mode = "clipboard" \/ mode = "stdout" \/ mode = "paste".
Proof.
  simpl. intros [H | [H | [H | []]]]; auto.
Qed.

(** X25: [deliver] rejects every mode outside the three valid ones with
    its "Invalid output mode" [ValueError] and without touching anything;
    for a valid mode the lookup in the dispatch table cannot fail, and
    [deliver] does exactly what the handler of that mode does. The stdout
    mode leaves the clipboard and the keyboard alone: when the write works
    the text is appended to standard output unchanged, and when the stream
    raises, that exception reaches the caller as it is, not as an
    [OutputError]. The other two modes never write to standard output. *)
Theorem deliver_validates_mode (repr : string -> string) (e : env)
    (text mode : string) (w : world) :
  (~ In mode VALID_MODES ->
   deliver repr e text mode w
   = (w, Some (ValueError
        ("Invalid output mode " ++ repr mode
         ++ ". Must be one of ('clipboard', 'stdout', 'paste')")))) /\
  (In mode VALID_MODES ->
   (mode = "clipboard" /\
    deliver repr e text mode w = to_clipboard e text w) \/
   (mode = "stdout" /\
    deliver repr e text mode w = to_stdout e text w) \/
   (mode = "paste" /\
    deliver repr e text mode w = to_paste e text w)) /\
  (mode = "stdout" ->
   clipboard (fst (deliver repr e text mode w)) = clipboard w /\
   taps (fst (deliver repr e text mode w)) = taps w /\
   match write e with
   | WriteDone =>
       deliver repr e text mode w
       = (mk_world (clipboard w) (stdout w ++ text) (taps w), None)
   | WriteFails err written =>
       deliver repr e text mode w
       = (mk_world (clipboard w) (stdout w ++ written) (taps w), Some err)
   end) /\
  (mode <> "stdout" -> stdout (fst (deliver repr e text mode w)) = stdout w).
Proof.
  split; [| split; [| split]].
  - intros Hn. unfold deliver.
    destruct (existsb (String.eqb mode) VALID_MODES) eqn:E.
    + exfalso. apply Hn. apply existsb_eqb_in, E.
    + reflexivity.
  - intros Hin. apply valid_mode_cases in Hin.
    destruct Hin as [-> | [-> | ->]]; [left | right; left | right; right];
      split; reflexivity.
  - intros ->. unfold deliver; simpl. unfold to_stdout.
    destruct (write e) as [| err written]; simpl; auto.
  - intros Hm. unfold deliver.
    destruct (existsb (String.eqb mode) VALID_MODES) eqn:E; [| reflexivity].
    apply existsb_eqb_in, valid_mode_cases in E.
    destruct E as [-> | [-> | ->]]; [| congruence |]; simpl.
    + unfold to_clipboard. destruct (copy_error e); reflexivity.
    + unfold to_paste, to_clipboard. destruct (copy_error e); simpl;
        [reflexivity |].
      destruct (paste e) as [| m tapped]; simpl; [| destruct tapped];
        reflexivity.
Qed.

Lemma deliver_validates_mode_witness :
  let e := mk_env None false PasteDone
             (WriteFails (OSError "[Errno 32] Broken pipe") "") in
  let w := mk_world "old" "" [] in
  let quote := fun s => "'" ++ s ++ "'" in
  deliver quote e "hello" "email" w
  = (w, Some (ValueError
       "Invalid output mode 'email'. Must be one of ('clipboard', 'stdout', 'paste')")) /\
  deliver quote e "hello" "stdout" w
  = (w, Some (OSError "[Errno 32] Broken pipe")) /\
  deliver quote e "hello" "clipboard" w = to_clipboard e "hello" w /\
  stdout (fst (deliver quote e "hello" "paste" w)) = "".
Proof.
  intros e w quote.
  split; [| split; [| split]].
  - apply (proj1 (deliver_validates_mode quote e "hello" "email" w)).
    simpl. intros H. repeat (destruct H as [H | H]; [discriminate |]). exact H.
  - pose proof (proj1 (proj2 (proj2
        (deliver_validates_mode quote e "hello" "stdout" w))) eq_refl)
      as (_ & _ & H).
    exact H.
  - destruct (proj1 (proj2
        (deliver_validates_mode quote e "hello" "clipboard" w)))
      as [[_ H] | [[H _] | [H _]]];
      [simpl; tauto | exact H | discriminate | discriminate].
  - apply (proj2 (proj2 (proj2
        (deliver_validates_mode quote e "hello" "paste" w)))).
    discriminate.
Defined.

End OutputTheorems.

(** ** Text cleaning: whitespace *)

Section WhitespaceFacts.
Import Cleaner.
Local Open Scope string_scope.

Lemma split_lines_not_nil (s : string) : split_lines s <> [].
Proof.
  induction s as [| c s IH]; simpl; [discriminate |].
  destruct (Ascii.eqb c newline); [discriminate |].
  destruct (split_lines s); discriminate.
Qed.

Lemma split_lines_no_newline (s : string) :
  Forall (fun l => no_newline l = true) (split_lines s).
Proof.
  induction s as [| c s IH]; simpl.
  - repeat constructor.
  - destruct (Ascii.eqb c newline) eqn:E.
    + constructor; [reflexivity | exact IH].
    + destruct (split_lines s) as [| l ls]; [repeat constructor; simpl; rewrite E; reflexivity |].
      inversion IH as [| ? ? Hl Hls]; subst.
      constructor; [simpl; rewrite E, Hl; reflexivity | exact Hls].
Qed.

Lemma split_lines_append (x t : string) :
  no_newline x = true ->
  split_lines (x ++ String newline t) = x :: split_lines t.
Proof.
  induction x as [| c x IH]; simpl; intros H.
  - reflexivity.
  - apply andb_true_iff in H. destruct H as [Hc Hx].
    apply negb_true_iff in Hc. rewrite Hc, (IH Hx). reflexivity.
Qed.

Lemma split_lines_single (x : string) :
  no_newline x = true -> split_lines x = [x].
Proof.
  induction x as [| c x IH]; simpl; intros H; [reflexivity |].
  apply andb_true_iff in H. destruct H as [Hc Hx].
  apply negb_true_iff in Hc. rewrite Hc, (IH Hx). reflexivity.
Qed.

Lemma split_lines_join (ls : list string) :
  ls <> [] -> Forall (fun l => no_newline l = true) ls ->
  split_lines (String.concat (String newline "") ls) = ls.
Proof.
  induction ls as [| x ls IH]; [congruence | intros _ Hall].
  inversion Hall as [| ? ? Hx Hls]; subst.
  destruct ls as [| y ls].
  - simpl. apply split_lines_single, Hx.
  - change (String.concat (String newline "") (x :: y :: ls))
      with (x ++ String newline (String.concat (String newline "") (y :: ls))).
    rewrite split_lines_append by exact Hx.
    rewrite IH; [reflexivity | discriminate | exact Hls].
Qed.

Lemma no_newline_collapse (s : string) :
  no_newline s = true -> no_newline (collapse_spaces s) = true.
Proof.
  induction s as [| c s IH]; simpl; intros H; [reflexivity |].
  apply andb_true_iff in H. destruct H as [Hc Hs].
  destruct (Ascii.eqb c space).
  - destruct s as [| c' s']; [simpl; rewrite Hc; reflexivity |].
    destruct (Ascii.eqb c' space); [apply IH, Hs |].
    change (no_newline (String c (collapse_spaces (String c' s'))) = true).
    cbn [no_newline]. rewrite Hc, (IH Hs). reflexivity.
  - cbn [no_newline]. rewrite Hc, (IH Hs). reflexivity.
Qed.

Lemma no_newline_lstrip (s : string) :
  no_newline s = true -> no_newline (lstrip s) = true.
Proof.
  induction s as [| c s IH]; simpl; intros H; [reflexivity |].
  destruct (is_space c); [| exact H].
  apply andb_true_iff in H. apply IH, H.
Qed.

Lemma no_newline_rstrip (s : string) :
  no_newline s = true -> no_newline (rstrip s) = true.
Proof.
  induction s as [| c s IH]; simpl; intros H; [reflexivity |].
  apply andb_true_iff in H. destruct H as [Hc Hs]. specialize (IH Hs).
  destruct (rstrip s) as [| c' r].
  - destruct (is_space c); simpl; [reflexivity | rewrite Hc; reflexivity].
  - cbn [no_newline] in *. rewrite Hc, IH. reflexivity.
Qed.

Lemma no_newline_strip (s : string) :
  no_newline s = true -> no_newline (strip s) = true.
Proof. intros H. apply no_newline_rstrip, no_newline_lstrip, H. Qed.

Lemma collapse_spaces_shape (s : string) :
  no_double_space (collapse_spaces s) = true /\
  first_char (collapse_spaces s) = first_char s.
Proof.
  induction s as [| c s IH]; [split; reflexivity |].
  destruct IH as [IHn IHh]. cbn [collapse_spaces].
  destruct (Ascii.eqb c space) eqn:Ec.
  - destruct s as [| c' s'].
    + split; reflexivity.
    + destruct (Ascii.eqb c' space) eqn:Ec'.
      * split; [exact IHn |]. rewrite IHh. simpl.
        apply Ascii.eqb_eq in Ec, Ec'. congruence.
      * destruct (collapse_spaces (String c' s')) as [| c2 t] eqn:E;
          [discriminate |].
        simpl in IHh. injection IHh as ->.
        split; [| reflexivity].
        change (negb (Ascii.eqb c space && Ascii.eqb c' space)
                && no_double_space (String c' t) = true).
        rewrite Ec', andb_false_r. exact IHn.
  - split; [| reflexivity].
    destruct (collapse_spaces s) as [| c2 t] eqn:E; [reflexivity |].
    change (negb (Ascii.eqb c space && Ascii.eqb c2 space)
            && no_double_space (String c2 t) = true).
    rewrite Ec. exact IHn.
Qed.

Lemma collapse_spaces_fixed (s : string) :
  no_double_space s = true -> collapse_spaces s = s.
Proof.
  induction s as [| c s IH]; [reflexivity |].
  cbn [collapse_spaces no_double_space].
  destruct s as [| c' s'].
  - intros _. destruct (Ascii.eqb c space); reflexivity.
  - intros H. apply andb_true_iff in H. destruct H as [Hcc Hs].
    rewrite (IH Hs).
    destruct (Ascii.eqb c space); [| reflexivity].
    destruct (Ascii.eqb c' space); [discriminate | reflexivity].
Qed.

Lemma no_double_space_tail (c : ascii) (s : string) :
  no_double_space (String c s) = true -> no_double_space s = true.
Proof.
  cbn [no_double_space]. destruct s; [reflexivity |].
  intros H. apply andb_true_iff in H. apply H.
Qed.

Lemma no_double_space_lstrip (s : string) :
  no_double_space s = true -> no_double_space (lstrip s) = true.
Proof.
  induction s as [| c s IH]; [reflexivity |].
  intros H. cbn [lstrip]. destruct (is_space c); [| exact H].
  apply IH, (no_double_space_tail c s H).
Qed.

Lemma no_double_space_rstrip (s : string) :
  no_double_space s = true -> no_double_space (rstrip s) = true.
Proof.
  induction s as [| c s IH]; [reflexivity |].
  intros H. pose proof (IH (no_double_space_tail c s H)) as IHs.
  pose proof (rstrip_head s) as Hh. cbn [rstrip].
  destruct (rstrip s) as [| c' r].
  - destruct (is_space c); reflexivity.
  - destruct s as [| c0 s0]; [contradiction |]. subst c0.
    change (negb (Ascii.eqb c space && Ascii.eqb c' space)
            && no_double_space (String c' s0) = true) in H.
    change (negb (Ascii.eqb c space && Ascii.eqb c' space)
            && no_double_space (String c' r) = true).
    apply andb_true_iff in H. destruct H as [Hcc _].
    rewrite Hcc. exact IHs.
Qed.

(** What every line kept by [_normalize_whitespace] looks like. *)
Lemma cleaned_lines_shape (text : string) :
  Forall (fun l => l <> "" /\ strip l = l /\ no_double_space l = true /\
                   no_newline l = true)
         (cleaned_lines text).
Proof.
  unfold cleaned_lines. apply Forall_forall. intros l Hl.
  apply filter_In in Hl. destruct Hl as [Hin Hne].
  apply in_map_iff in Hin. destruct Hin as (x & <- & Hx).
  pose proof (split_lines_no_newline text) as Hnl.
  rewrite Forall_forall in Hnl. specialize (Hnl x Hx).
  split; [destruct (strip (collapse_spaces x)); [discriminate | discriminate] |].
  split; [apply strip_idempotent |]. split.
  - unfold strip. apply no_double_space_rstrip, no_double_space_lstrip.
    apply collapse_spaces_shape.
  - apply no_newline_strip, no_newline_collapse, Hnl.
Qed.

End WhitespaceFacts.

Section WhitespaceTheorems.
Import Cleaner.
Local Open Scope string_scope.

Lemma cleaned_line_fixed (l : string) :
  l <> "" /\ strip l = l /\ no_double_space l = true /\ no_newline l = true ->
  strip (collapse_spaces l) = l /\ nonempty l = true.
Proof.
  intros (Hne & Hs & Hd & _). rewrite (collapse_spaces_fixed l Hd).
  split; [exact Hs |]. destruct l; [congruence | reflexivity].
Qed.

Lemma cleaned_lines_of_join (ls : list string) :
  Forall (fun l => l <> "" /\ strip l = l /\ no_double_space l = true /\
                   no_newline l = true) ls ->
  cleaned_lines (String.concat (String newline "") ls) = ls.
Proof.
  intros Hall. destruct ls as [| x ls]; [reflexivity |].
  unfold cleaned_lines. rewrite split_lines_join.
  - induction Hall as [| y ys Hy Hys IH]; [reflexivity |].
    destruct (cleaned_line_fixed y Hy) as [Hf Hn].
    cbn [map filter]. rewrite Hf, Hn, IH. reflexivity.
  - discriminate.
  - eapply Forall_impl; [| exact Hall]. simpl. tauto.
Qed.

(** X26: [_normalize_whitespace] is idempotent, and the lines of its result
    are exactly the lines it kept: none is empty, none has leading or
    trailing whitespace, none contains two spaces in a row (an empty result
    means no line was kept). *)
Theorem normalize_whitespace_idempotent (text : string) :
  _normalize_whitespace (_normalize_whitespace text)
    = _normalize_whitespace text /\
  ((_normalize_whitespace text = "" /\ cleaned_lines text = []) \/
   (split_lines (_normalize_whitespace text) = cleaned_lines text /\
    Forall (fun l => l <> "" /\ strip l = l /\ no_double_space l = true)
           (split_lines (_normalize_whitespace text)))).
Proof.
  pose proof (cleaned_lines_shape text) as Hshape.
  split.
  - unfold _normalize_whitespace at 1 3. f_equal.
    apply cleaned_lines_of_join, Hshape.
  - unfold _normalize_whitespace.
    destruct (cleaned_lines text) as [| x ls] eqn:E; [left; split; reflexivity |].
    right.
    assert (Hsplit : split_lines (String.concat (String newline "") (x :: ls))
                     = x :: ls).
    { apply split_lines_join; [discriminate |].
      eapply Forall_impl; [| exact Hshape]. simpl. tauto. }
    rewrite Hsplit. split; [reflexivity |].
    eapply Forall_impl; [| exact Hshape]. simpl. tauto.
Qed.

End WhitespaceTheorems.

Section AllSilentStream.
Local Open Scope Z_scope.

Lemma trailing_silent_run_all_quiet (cfg : config) (quiet : list chunk) :
  Forall (fun c => is_silent cfg c = true) quiet ->
  trailing_silent_run cfg quiet = quiet.
Proof.
  intros H.
  exact (trailing_silent_run_loud_then_quiet cfg [] quiet (Forall_nil _) H).
Qed.

(** X27: a stream that is silent from its first block on, and stays below
    the maximum, leaves the loop through the silence break exactly when it
    has delivered strictly more samples than the silence bound: as many
    silent samples as the bound are not enough before any other audio. *)
Theorem all_silent_stream_ends_above_bound (cfg : config)
    (quiet : list chunk) :
  Forall (fun c => is_silent cfg c = true) quiet ->
  quiet <> [] ->
  total_len quiet < max_samples cfg ->
  ((exists st',
      run_blocks cfg initial_state quiet = Break BreakSilence st')
   <-> silent_samples_needed cfg < total_len quiet) /\
  (forall st', run_blocks cfg initial_state quiet <> Break BreakMax st').
Proof.
  intros Hq Hne HM.
  assert (Hno : forall st',
             run_blocks cfg initial_state quiet <> Break BreakMax st').
  { intros st' H.
    destruct (run_blocks_break cfg _ initial_state st' BreakMax
                (counters_ok_initial cfg) H)
      as (consumed & rest & Hcs & _ & Hch & Hok & Hwhy & _).
    simpl in Hch. destruct Hok as [_ Ht]. destruct Hwhy as [_ Hmax].
    unfold max_test in Hmax. rewrite Ht, Hch in Hmax.
    rewrite Hcs, total_len_app in HM. pose proof (total_len_nonneg rest). lia. }
  split; [| exact Hno]. split.
  - intros [st' H].
    destruct (run_blocks_break cfg _ initial_state st' BreakSilence
                (counters_ok_initial cfg) H)
      as (consumed & rest & Hcs & _ & Hch & Hok & Hwhy & _).
    simpl in Hch. destruct Hok as [_ Ht]. destruct Hwhy as [_ Htot].
    rewrite Ht, Hch in Htot.
    rewrite Hcs, total_len_app. pose proof (total_len_nonneg rest). lia.
  - intros HN.
    destruct (run_blocks cfg initial_state quiet) as [st' | why st'] eqn:Hrun.
    + exfalso.
      destruct (run_blocks_continue cfg _ initial_state st'
                  (counters_ok_initial cfg) Hrun) as (_ & _ & Hmin).
      apply (Hmin quiet [] (eq_sym (app_nil_r _)) Hne).
      change (chunks initial_state ++ quiet) with quiet.
      left. rewrite (trailing_silent_run_all_quiet cfg quiet Hq). lia.
    + destruct why; [exists st'; reflexivity | exfalso; exact (Hno st' eq_refl)].
Qed.

Lemma all_silent_stream_ends_above_bound_witness :
  (forall st',
     run_blocks long_silence_config initial_state (repeat (zeros 1024) 125)
     <> Break BreakSilence st') /\
  (exists st',
     run_blocks long_silence_config initial_state (repeat (zeros 1024) 126)
     = Break BreakSilence st').
Proof.
  assert (Hlo : (-120 < threshold_db long_silence_config)%R) by (simpl; lra).
  assert (Hq : forall k,
            Forall (fun c => is_silent long_silence_config c = true)
                   (repeat (zeros 1024) k)).
  { intros k. apply Forall_forall. intros c Hc. apply repeat_spec in Hc.
    subst c. apply (is_silent_zeros long_silence_config 1023 Hlo). }
  assert (Hlen : forall k, total_len (repeat (zeros 1024) k) = Z.of_nat k * 1024).
  { induction k as [| k IH]; [reflexivity |].
    change (repeat (zeros 1024) (S k)) with (zeros 1024 :: repeat (zeros 1024) k).
    cbn [total_len fold_right]. fold (total_len (repeat (zeros 1024) k)).
    rewrite IH, len_zeros. lia. }
  assert (HN : silent_samples_needed long_silence_config = 128000) by reflexivity.
  assert (HM : max_samples long_silence_config = 480000) by reflexivity.
  split.
  - intros st' H.
    pose proof (proj1 (proj1 (all_silent_stream_ends_above_bound
                                long_silence_config
                                (repeat (zeros 1024) 125) (Hq 125%nat)
                                ltac:(discriminate)
                                ltac:(rewrite Hlen, HM; lia)))
                  (ex_intro _ st' H)) as H'.
    rewrite Hlen, HN in H'. lia.
  - apply (proj1 (all_silent_stream_ends_above_bound long_silence_config
                    (repeat (zeros 1024) 126) (Hq 126%nat)
                    ltac:(discriminate)
                    ltac:(rewrite Hlen, HM; lia))).
    rewrite Hlen, HN. lia.
Defined.

End AllSilentStream.

(** ** Text cleaning: filler words *)

Section FillerFacts.
Import Cleaner.
Local Open Scope string_scope.


















End FillerFacts.
